(** * Zipf's law: the text-to-statistics pipeline of [zipf_corpus.py]

    A shallow embedding of [get_words], [analyze_text], [read_text_safely]
    and [analyze_corpus], and the properties of the pipeline stated in the
    specification.

    Conventions of the embedding.
    - A Python [str] is a list of Unicode code points ([N]); string
      literals of the source are written as UTF-8 literals and decoded by
      [u].
    - A Python [int] is a [Z].  [analyze_text] is read in exact
      arithmetic: a Python [float] is an exact rational ([Q]), rounding is
      not modelled, and division by zero raises [ZeroDivisionError]
      exactly where Python raises it.  The module [Binary64] reads the
      estimators once more with every float operation rounded to IEEE 754
      binary64, as CPython computes them.
    - A [dict] (hence a [Counter]) is an association list in insertion
      order, as CPython keeps it; [sorted] is a stable sort.
    - An exception is a value of [exn]; a computation that may raise has
      type [result A]. *)

From Stdlib Require Import String Ascii.
From Stdlib Require Import List ZArith NArith QArith Qabs Lia Lqa Bool.
From Stdlib Require Import Sorting.Sorted Permutation.
From Corelib Require PrimFloat FloatOps SpecFloat Uint63Axioms.
Import ListNotations.

Open Scope Z_scope.

(* ================================================================= *)
(** ** Python runtime: exceptions *)

(** The exceptions the modelled functions can meet.  [arithmetic_error]
    is Python's class test [isinstance(e, ArithmeticError)]. *)
Inductive exn : Type :=
  | ZeroDivisionError
  | IndexError
  | UnicodeDecodeError
  | OSError.

Definition arithmetic_error (e : exn) : bool :=
  match e with
  | ZeroDivisionError => true
  | _ => false
  end.

Inductive result (A : Type) : Type :=
  | Ret (a : A)
  | Raise (e : exn).

Arguments Ret {A} a.
Arguments Raise {A} e.

Definition bind {A B : Type} (m : result A) (k : A -> result B) : result B :=
  match m with
  | Ret a => k a
  | Raise e => Raise e
  end.

Notation "x <- m ;; k" := (bind m (fun x => k))
  (at level 61, m at next level, right associativity).
Notation "' p <- m ;; k" := (bind m (fun p => k))
  (at level 61, p pattern, m at next level, right associativity).

(** A [for] loop whose body may raise, threading the loop state. *)
Fixpoint for_each {A S : Type} (body : S -> A -> result S) (l : list A) (s : S)
  : result S :=
  match l with
  | [] => Ret s
  | x :: rest => s' <- body s x ;; for_each body rest s'
  end.

(** A comprehension whose element expression may raise. *)
Fixpoint comprehension {A B : Type} (f : A -> result B) (l : list A)
  : result (list B) :=
  match l with
  | [] => Ret []
  | x :: rest => y <- f x ;; ys <- comprehension f rest ;; Ret (y :: ys)
  end.

(* ================================================================= *)
(** ** Python runtime: strings *)

Definition codepoint : Type := N.
Definition str : Type := list codepoint.

Definition str_eqb (a b : str) : bool :=
  if list_eq_dec N.eq_dec a b then true else false.

Definition len {A : Type} (l : list A) : Z := Z.of_nat (length l).

(** [w[0]]: raises [IndexError] on the empty string. *)
Definition first_char (w : str) : result codepoint :=
  match w with
  | [] => Raise IndexError
  | c :: _ => Ret c
  end.

(** The code points of a UTF-8 byte sequence (one to four bytes each). *)
Fixpoint utf8_decode (bs : list N) : str :=
  match bs with
  | [] => []
  | b0 :: r0 =>
    if (b0 <? 128)%N then b0 :: utf8_decode r0
    else if (b0 <? 224)%N then
      match r0 with
      | b1 :: r1 =>
        N.lor (N.shiftl (N.land b0 31) 6) (N.land b1 63) :: utf8_decode r1
      | _ => []
      end
    else if (b0 <? 240)%N then
      match r0 with
      | b1 :: b2 :: r2 =>
        N.lor (N.shiftl (N.land b0 15) 12)
          (N.lor (N.shiftl (N.land b1 63) 6) (N.land b2 63)) :: utf8_decode r2
      | _ => []
      end
    else
      match r0 with
      | b1 :: b2 :: b3 :: r3 =>
        N.lor (N.shiftl (N.land b0 7) 18)
          (N.lor (N.shiftl (N.land b1 63) 12)
             (N.lor (N.shiftl (N.land b2 63) 6) (N.land b3 63))) :: utf8_decode r3
      | _ => []
      end
  end.

(** A string literal of the source. *)
Definition u (s : String.string) : str :=
  utf8_decode (List.map Ascii.N_of_ascii (String.list_ascii_of_string s)).

(** The Unicode tables of the Python runtime that [get_words] consults:
    [str.lower()], the regular-expression class [\w] under [re.UNICODE],
    and the per-character test behind [str.isdigit()]. *)
Record unicode : Type := {
  lower : str -> str;
  word_char : codepoint -> bool;
  digit_char : codepoint -> bool
}.

(** [w.isdigit()]: every character is a digit and there is at least one. *)
Definition isdigit (U : unicode) (w : str) : bool :=
  match w with
  | [] => false
  | _ => forallb (digit_char U) w
  end.

(** [re.findall(r"\w+", text)]: the maximal runs of word characters, from
    left to right.  [cur] is the run being read. *)
Fixpoint findall_run (U : unicode) (cur : str) (text : str) : list str :=
  match text with
  | [] => match cur with [] => [] | _ => [cur] end
  | c :: rest =>
    if word_char U c then findall_run U (cur ++ [c]) rest
    else match cur with
         | [] => findall_run U [] rest
         | _ => cur :: findall_run U [] rest
         end
  end.

Definition findall_w (U : unicode) (text : str) : list str :=
  findall_run U [] text.

(* ================================================================= *)
(** ** Python runtime: dict, Counter, sorted, slices, enumerate *)

Section Dict.
Context {V : Type}.

Definition dict : Type := list (str * V).

Fixpoint dict_get (d : dict) (k : str) : option V :=
  match d with
  | [] => None
  | (k', v) :: rest => if str_eqb k' k then Some v else dict_get rest k
  end.

(** [d.get(k, default)] *)
Definition dict_get_default (d : dict) (k : str) (default : V) : V :=
  match dict_get d k with
  | Some v => v
  | None => default
  end.

(** [d[k] = v]: an existing key keeps its position, a new key is added
    at the end. *)
Fixpoint dict_set (d : dict) (k : str) (v : V) : dict :=
  match d with
  | [] => [(k, v)]
  | (k', v') :: rest =>
    if str_eqb k' k then (k', v) :: rest else (k', v') :: dict_set rest k v
  end.
End Dict.

Arguments dict V : clear implicits.

(** [Counter(words)]: for each element in turn,
    [self[elem] = self.get(elem, 0) + 1]. *)
Definition count_element (c : dict Z) (w : str) : dict Z :=
  dict_set c w (dict_get_default c w 0 + 1).

Definition Counter (words : list str) : dict Z :=
  fold_left count_element words [].

(** [sorted(items, key=itemgetter(1), reverse=True)].  Python's sort is
    stable, also with [reverse=True]: it is modelled by the stable
    insertion sort, which places an item before the first item whose key
    is not greater. *)
Fixpoint insert_desc {A : Type} (key : A -> Z) (x : A) (s : list A) : list A :=
  match s with
  | [] => [x]
  | y :: s' => if key x <? key y then y :: insert_desc key x s' else x :: s
  end.

Fixpoint sorted_desc {A : Type} (key : A -> Z) (l : list A) : list A :=
  match l with
  | [] => []
  | x :: rest => insert_desc key x (sorted_desc key rest)
  end.

(** [Counter.most_common()] with no argument. *)
Definition most_common (c : dict Z) : list (str * Z) :=
  sorted_desc snd c.

(** [l[:n]] for an int [n]: a negative [n] counts from the end. *)
Definition slice_to {A : Type} (l : list A) (n : Z) : list A :=
  if 0 <=? n then firstn (Z.to_nat n) l
  else firstn (length l - Z.to_nat (- n)) l.

(** [enumerate(l, start)] *)
Fixpoint enumerate {A : Type} (start : Z) (l : list A) : list (Z * A) :=
  match l with
  | [] => []
  | x :: rest => (start, x) :: enumerate (start + 1) rest
  end.

(** [zip(a, b)] is [combine a b]. *)

(* ================================================================= *)
(** ** Python runtime: numbers *)

(** [x / y]: true division; raises on a zero divisor. *)
Definition truediv (x y : Q) : result Q :=
  if Qeq_bool y 0 then Raise ZeroDivisionError else Ret (x / y)%Q.

(** [sum(l)]: a left fold from the int [0]. *)
Definition sum (l : list Q) : Q := fold_left Qplus l 0%Q.

Definition int (z : Z) : Q := inject_Z z.

(* ================================================================= *)
(** ** Stop words (sections 1 and 2 of the source) *)

(** A Python [set] of strings used only through [in] and [|]: a list,
    with membership [set_mem] and union [++]. *)
Definition set_mem (w : str) (s : list str) : bool := existsb (str_eqb w) s.

Definition BASE_STOPWORDS : list str :=
  List.map u [
    "и"; "в"; "во"; "на"; "не"; "что"; "он"; "она"; "оно"; "они";
    "я"; "ты"; "вы"; "мы";
    "а"; "но"; "как"; "так"; "же";
    "с"; "со"; "к"; "ко"; "у"; "от"; "до"; "по"; "из"; "за"; "над"; "под";
    "это"; "тогда"; "там"; "тут"; "здесь";
    "его"; "ее"; "их"; "ему"; "ей"; "им";
    "бы"; "ли"; "то"; "вот"; "уж"; "ну";
    "для"; "при"; "без"; "об"; "про"; "надо";
    "да"; "или"; "если"; "чтобы";
    "о"; "об"; "был"; "было"; "были";
    "ещё"; "еще"; "уже"; "только"; "всё"; "все"; "рис";
    "in"; "on"; "to"; "and"; "the"; "is"; "of"; "for"; "from"; "by"
  ]%string.

Definition PERSONAL_STOP : dict (list str) :=
  [
    (u "arina.txt", List.map u [
       "i"; "j"; "k"; "double"; "float"
     ]%string);
    (u "Fedorov_MV.txt", List.map u [
       "м"; "н"; "ф"; "кг"; "мм"; "см"; "мпа"; "м2"; "м3";
       "расч"; "форм"; "табл"; "рис"
     ]%string);
    (u "kolesnikova_ds.txt", List.map u [
       "self"; "score"; "z"; "x"; "y";
       "рисунок"; "табл"; "png"; "jpg"; "ктр"
     ]%string);
    (u "kucheryavaya_mi.txt", List.map u [
       "float"; "vec3"; "gl"; "shader";
       "f"; "t"; "i"; "e"
     ]%string);
    (u "kuznetsova_av.txt", List.map u [
       "service"; "desk"; "rpa"; "naumen"; "itsm"
     ]%string);
    (u "Miroshnichenko_DA.txt", List.map u [
       "бывало"; "только"; "ещё"; "еще";
       "было"; "был"; "была";
       "степан"; "трофимович"
     ]%string);
    (u "ozhegova_ea_VKR.txt", List.map u [
       "do"; "enddo"; "integer"; "subroutine"; "intent";
       "real"; "double"; "module"; "contains"; "use";
       "endif"; "if"; "then"; "else";
       "l1"; "l2"; "x1"; "inz"; "tmp"; "arr"
     ]%string);
    (u "Patalakha_ad_VKR.txt", List.map u [
       "кв"; "вкр"; "глава"; "табл"; "рис"
     ]%string);
    (u "Sokolova_IP.txt", List.map u [
       "бд"; "sql"; "select"; "from"; "join";
       "табл"; "рис"; "json"; "быть"; "может"
     ]%string);
    (u "Valchuk_LV.txt", List.map u [
       "ооо"; "зао"; "оао"; "агроторг"; "ооо"; "ooo";
       "табл"; "рис"; "также"
     ]%string);
    (u "vilydanova_la.txt", List.map u [
       "пао"; "оао"; "сургутнефтегаз"; "роснефть"; "газпром";
       "лукойл"; "нефтегаз"; "табл"; "рис";
       "акционерное"; "общество"
     ]%string)
  ].

(* ================================================================= *)
(** ** [get_words] *)

(** A one-character literal of the source. *)
Definition chr (s : String.string) : codepoint :=
  match u s with
  | c :: _ => c
  | [] => 0%N
  end.

(** ['а' <= c <= 'я'] *)
Definition in_a_ya (c : codepoint) : bool :=
  ((chr "а" <=? c) && (c <=? chr "я"))%N.

(** The effective stop list of a file:
    [set(BASE_STOPWORDS) | set(PERSONAL_STOP.get(filename, set()))]. *)
Definition stop_words (filename : str) : list str :=
  BASE_STOPWORDS ++ dict_get_default PERSONAL_STOP filename [].

(** The body of the filtering loop: [None] stands for [continue],
    [Some w] for [cleaned.append(w)]. *)
Definition filter_step (U : unicode) (stop : list str) (w : str)
  : result (option str) :=
  if set_mem w stop then Ret None
  else if isdigit U w then Ret None
  else if len w =? 1 then Ret None
  else
    short <- (if len w <=? 3
              then c <- first_char w ;; Ret (negb (in_a_ya c))
              else Ret false) ;;
    if (short : bool) then Ret None else Ret (Some w).

Definition filter_loop (U : unicode) (stop : list str) (words : list str)
  : result (list str) :=
  for_each
    (fun cleaned w =>
       r <- filter_step U stop w ;;
       match r with
       | None => Ret cleaned
       | Some w' => Ret (cleaned ++ [w'])
       end)
    words [].

Definition get_words (U : unicode) (text : str) (filename : str)
  : result (list str) :=
  let words := findall_w U (lower U text) in
  let stop := stop_words filename in
  filter_loop U stop words.

(* ================================================================= *)
(** ** [analyze_text] *)

Record ZipfResult : Type := {
  total_words : Z;
  unique_words : Z;
  ranks : list Z;
  freqs_rel : list Q;
  freqs_theor : list Q;
  C_mean : Q;
  C_opt : Q;
  mse : Q;
  top_list : list (str * Z)
}.

(** [sorted_items] after the optional truncation: the visible window. *)
Definition rank_window (words : list str) (top_n : Z) : list (str * Z) :=
  let counter := Counter words in
  let sorted_items := most_common counter in
  if top_n =? 0 then sorted_items else slice_to sorted_items top_n.

(** The ranked list [enumerate(sorted_items, start=1)] the loop walks. *)
Definition ranked (words : list str) (top_n : Z) : list (Z * (str * Z)) :=
  enumerate 1 (rank_window words top_n).

(** The loop over the ranked items: three lists grown together. *)
Definition experimental (total_words : Z) (items : list (Z * (str * Z)))
  : result (list Z * list Q * list Q) :=
  for_each
    (fun '(ranks, freqs_rel, const_fr) '(rank, (word, freq)) =>
       f_rel <- truediv (int freq) (int total_words) ;;
       Ret (ranks ++ [rank], freqs_rel ++ [f_rel],
            const_fr ++ [(f_rel * int rank)%Q]))
    items ([], [], []).

Definition analyze_text (words : list str) (top_n : Z) : result ZipfResult :=
  let total_words := len words in
  let counter := Counter words in
  let sorted_items := rank_window words top_n in
  '(ranks, freqs_rel, const_fr) <-
     experimental total_words (enumerate 1 sorted_items) ;;
  C_mean <- truediv (sum const_fr) (int (len const_fr)) ;;
  num_terms <- comprehension (fun '(f, r) => truediv f (int r))
                 (combine freqs_rel ranks) ;;
  let num := sum num_terms in
  denom_terms <- comprehension (fun r => truediv 1 (int (r * r))) ranks ;;
  let denom := sum denom_terms in
  C_opt <- truediv num denom ;;
  freqs_theor <-
     for_each (fun acc r => t <- truediv C_opt (int r) ;; Ret (acc ++ [t]))
       ranks [] ;;
  let squares :=
    List.map (fun '(f, t) => ((f - t) ^ 2)%Q) (combine freqs_rel freqs_theor) in
  mse <- truediv (sum squares) (int (len ranks)) ;;
  Ret {| total_words := total_words;
         unique_words := len counter;
         ranks := ranks;
         freqs_rel := freqs_rel;
         freqs_theor := freqs_theor;
         C_mean := C_mean;
         C_opt := C_opt;
         mse := mse;
         top_list := slice_to sorted_items 20 |}.

(* ================================================================= *)
(** ** [read_text_safely] and [analyze_corpus] *)

Inductive encoding : Type := utf_8 | cp1251 | windows_1251.

(** The file system as the corpus functions see it: the [*.txt] names of
    a folder in sorted order, and [Path.read_text] in a given encoding
    (which raises [UnicodeDecodeError] or [OSError]). *)
Record filesystem : Type := {
  sorted_glob_txt : str -> list str;
  read_text : str -> str -> encoding -> result str
}.

Fixpoint try_encodings (read : encoding -> result str) (encs : list encoding)
  : result str :=
  match encs with
  | [] => read utf_8
  | enc :: rest =>
    match read enc with
    | Raise UnicodeDecodeError => try_encodings read rest
    | r => r
    end
  end.

Definition read_text_safely (fs : filesystem) (folder name : str) : result str :=
  try_encodings (read_text fs folder name) [utf_8; cp1251; windows_1251].

(** What [print] wrote, one constructor per [print] call of
    [analyze_corpus]; number formatting is not modelled. *)
Inductive line : Type :=
  | line_file (name : str)
  | line_total (n : Z)
  | line_unique (n : Z)
  | line_C_mean (c : Q)
  | line_C_opt (c : Q)
  | line_mse (e : Q)
  | line_top10
  | line_top (i : Z) (w : str) (f : Z).

Definition summary (res : ZipfResult) : list line :=
  [line_total (total_words res); line_unique (unique_words res);
   line_C_mean (C_mean res); line_C_opt (C_opt res); line_mse (mse res);
   line_top10]
  ++ List.map (fun '(i, (w, f)) => line_top i w f)
       (enumerate 1 (slice_to (top_list res) 10)).

(** Lines 248-250: load, tokenize and analyze one document. *)
Definition analyze_file (fs : filesystem) (U : unicode) (folder name : str)
  (top_n : Z) : result ZipfResult :=
  text <- read_text_safely fs folder name ;;
  words <- get_words U text name ;;
  analyze_text words top_n.

(** The loop of [analyze_corpus] over the sorted paths, threading what was
    printed and the [results] dict.  An exception leaves the loop and the
    function: what was printed stays, [results] is lost. *)
Fixpoint corpus_loop (fs : filesystem) (U : unicode) (folder : str) (top_n : Z)
  (paths : list str) (out : list line) (results : dict ZipfResult)
  : list line * result (dict ZipfResult) :=
  match paths with
  | [] => (out, Ret results)
  | name :: rest =>
    let out := out ++ [line_file name] in
    match analyze_file fs U folder name top_n with
    | Raise e => (out, Raise e)
    | Ret res =>
      corpus_loop fs U folder top_n rest (out ++ summary res)
        (dict_set results name res)
    end
  end.

Definition analyze_corpus (fs : filesystem) (U : unicode) (folder : str)
  (top_n : Z) : list line * result (dict ZipfResult) :=
  corpus_loop fs U folder top_n (sorted_glob_txt fs folder) [] [].

(* ================================================================= *)
(** ** [plot_zipf] and [compare_two_files] *)

(** What [compare_two_files] shows: its three kinds of [print] line and
    the figures of [plot_zipf].  Number formatting and rendering are not
    modelled: a figure is the data handed to [plt.loglog] (the ranks with
    the experimental and with the theoretical frequencies), the constant
    of the legend and the title. *)
Inductive shown : Type :=
  | shown_comparison (file1 file2 : str)
  | shown_rule
  | shown_estimates (name : str) (c_mean c_opt e : Q)
  | shown_figure (xs : list Z) (experiment theory : list Q) (c : Q) (title : str).

Definition plot_zipf (result : ZipfResult) (title : str) : shown :=
  shown_figure (ranks result) (freqs_rel result) (freqs_theor result)
    (C_opt result) title.

(** Both texts are read, then both are tokenized, then both are analyzed;
    only then is anything printed or drawn. *)
Definition compare_two_files (fs : filesystem) (U : unicode)
  (folder file1 file2 : str) (top_n : Z) : list shown * result unit :=
  match
    (text1 <- read_text_safely fs folder file1 ;;
     text2 <- read_text_safely fs folder file2 ;;
     words1 <- get_words U text1 file1 ;;
     words2 <- get_words U text2 file2 ;;
     res1 <- analyze_text words1 top_n ;;
     res2 <- analyze_text words2 top_n ;;
     Ret (res1, res2))
  with
  | Raise e => ([], Raise e)
  | Ret (res1, res2) =>
    ([shown_comparison file1 file2;
      shown_rule;
      shown_estimates file1 (C_mean res1) (C_opt res1) (mse res1);
      shown_estimates file2 (C_mean res2) (C_opt res2) (mse res2);
      plot_zipf res1 (u "Закон Ципфа: " ++ file1);
      plot_zipf res2 (u "Закон Ципфа: " ++ file2)],
     Ret tt)
  end.

(* ================================================================= *)
(** ** The estimators in binary64 *)

(** Lines 172-198 of [analyze_text] once more, with Python's float
    operations as CPython performs them: IEEE 754 binary64, every
    operation rounded to nearest. *)
Module Binary64.

Definition float : Set := PrimFloat.float.

(** An int used as a float.  The conversion is exact below 2^53, and so
    is Python's int by int true division modelled through it: every
    count, total and rank of a list held in memory is in that range. *)
Definition of_int (z : Z) : float := PrimFloat.of_uint63 (Uint63Axioms.of_Z z).

(** [x / y]: raises on a zero divisor, of either sign. *)
Definition truediv (x y : float) : result float :=
  if PrimFloat.eqb y PrimFloat.zero then Raise ZeroDivisionError
  else Ret (PrimFloat.div x y).

(** [sum(l)] before Python 3.12: additions from left to right. *)
Definition sum (l : list float) : float :=
  fold_left PrimFloat.add l PrimFloat.zero.

(** [sum(l)] since Python 3.12: Neumaier's compensated summation; the
    compensation [c] is added at the end when it is non-zero and finite. *)
Definition neumaier_step (st : float * float) (x : float) : float * float :=
  let '(f_result, c) := st in
  let t := PrimFloat.add f_result x in
  let c' :=
    if PrimFloat.leb (PrimFloat.abs x) (PrimFloat.abs f_result)
    then PrimFloat.add c (PrimFloat.add (PrimFloat.sub f_result t) x)
    else PrimFloat.add c (PrimFloat.add (PrimFloat.sub x t) f_result) in
  (t, c').

Definition sum_neumaier (l : list float) : float :=
  let '(f_result, c) := fold_left neumaier_step l (PrimFloat.zero, PrimFloat.zero) in
  if negb (PrimFloat.eqb c PrimFloat.zero)
     && PrimFloat.ltb (PrimFloat.abs c) PrimFloat.infinity
  then PrimFloat.add f_result c
  else f_result.

(** The rational number a finite float stands for (0 for the others). *)
Definition exact (x : float) : Q :=
  match FloatOps.Prim2SF x with
  | SpecFloat.S754_finite s m e =>
    let v := if 0 <=? e then inject_Z (Zpos m * 2 ^ e)
             else Zpos m # Pos.pow 2 (Z.to_pos (- e)) in
    if s then Qopp v else v
  | _ => 0%Q
  end.

Record estimates : Type := {
  ranks : list Z;
  freqs_rel : list float;
  C_mean : float;
  C_opt : float
}.

Definition experimental (total_words : Z) (items : list (Z * (str * Z)))
  : result (list Z * list float * list float) :=
  for_each
    (fun '(ranks, freqs_rel, const_fr) '(rank, (word, freq)) =>
       f_rel <- truediv (of_int freq) (of_int total_words) ;;
       Ret (ranks ++ [rank], freqs_rel ++ [f_rel],
            const_fr ++ [PrimFloat.mul f_rel (of_int rank)]))
    items ([], [], []).

(** [fsum] is the [sum] of the Python at hand. *)
Definition estimators (fsum : list float -> float) (words : list str) (top_n : Z)
  : result estimates :=
  let total_words := len words in
  let sorted_items := rank_window words top_n in
  '(ranks, freqs_rel, const_fr) <-
     experimental total_words (enumerate 1 sorted_items) ;;
  C_mean <- truediv (fsum const_fr) (of_int (len const_fr)) ;;
  num_terms <- comprehension (fun '(f, r) => truediv f (of_int r))
                 (combine freqs_rel ranks) ;;
  let num := fsum num_terms in
  denom_terms <- comprehension (fun r => truediv (of_int 1) (of_int (r * r))) ranks ;;
  let denom := fsum denom_terms in
  C_opt <- truediv num denom ;;
  Ret {| ranks := ranks;
         freqs_rel := freqs_rel;
         C_mean := C_mean;
         C_opt := C_opt |}.

End Binary64.

(* ================================================================= *)
(** ** Vocabulary of the specification *)

(** Number of occurrences of a token in a token sequence. *)
Fixpoint occurrences (w : str) (ws : list str) : Z :=
  match ws with
  | [] => 0
  | x :: rest => (if str_eqb x w then 1 else 0) + occurrences w rest
  end.

(** Position at which a token is first encountered (the length of the
    sequence when it never is). *)
Fixpoint first_index (w : str) (ws : list str) : nat :=
  match ws with
  | [] => O
  | x :: rest => if str_eqb x w then O else S (first_index w rest)
  end.

(** Number of distinct tokens. *)
Definition distinct (ws : list str) : Z :=
  len (nodup (list_eq_dec N.eq_dec) ws).

(** [a] stands somewhere before [b] in [l]. *)
Definition before {A : Type} (l : list A) (a b : A) : Prop :=
  exists l1 l2 l3, l = l1 ++ a :: l2 ++ b :: l3.

(** Relative frequency [f_r = count_r / total]. *)
Definition rel_freq (total count : Z) : Q := (int count / int total)%Q.

(** Arithmetic mean. *)
Definition mean (l : list Q) : Q := (sum l / int (len l))%Q.

(** Sum of squared residuals [Σ (f_r - C/r)²] of the model [C / r]. *)
Definition sse (fs : list Q) (rs : list Z) (C : Q) : Q :=
  sum (List.map (fun '(f, r) => ((f - C / int r) ^ 2)%Q) (combine fs rs)).

(** [Σ f_r / r] and [Σ 1 / r²]. *)
Definition sum_f_over_r (fs : list Q) (rs : list Z) : Q :=
  sum (List.map (fun '(f, r) => (f / int r)%Q) (combine fs rs)).

Definition sum_inv_sq (rs : list Z) : Q :=
  sum (List.map (fun r => (1 / int (r * r))%Q) rs).

(** The letters of the Unicode Cyrillic block: U+0400..U+0481 and
    U+048A..U+04FF.  The 33 lower-case letters of the Russian alphabet are
    U+0430..U+044F and U+0451 (CYRILLIC SMALL LETTER IO). *)
Definition cyrillic_letter (c : codepoint) : bool :=
  (((1024 <=? c) && (c <=? 1153)) || ((1162 <=? c) && (c <=? 1279)))%N.

(** The 33 lower-case letters of the Russian alphabet: а..я and ё. *)
Definition russian_letter (c : codepoint) : bool :=
  in_a_ya c || (c =? chr "ё")%N.

(** The Unicode tables on Basic Latin and on the Cyrillic letters
    U+0400..U+045F (every other character is left as it is and separates
    words): the instance on which the model is run in the examples. *)
Definition basic_lower_char (c : codepoint) : codepoint :=
  (if (65 <=? c) && (c <=? 90) then c + 32
   else if (1040 <=? c) && (c <=? 1071) then c + 32
   else if (1024 <=? c) && (c <=? 1039) then c + 80
   else c)%N.

Definition basic_digit_char (c : codepoint) : bool :=
  ((48 <=? c) && (c <=? 57))%N.

Definition basic_word_char (c : codepoint) : bool :=
  (basic_digit_char c
   || ((65 <=? c) && (c <=? 90)) || ((97 <=? c) && (c <=? 122)) || (c =? 95)
   || ((1024 <=? c) && (c <=? 1119)))%N.

Definition basic_unicode : unicode :=
  {| lower := List.map basic_lower_char;
     word_char := basic_word_char;
     digit_char := basic_digit_char |}.

(** A folder with an empty document [a.txt] and a document [b.txt]. *)
Definition two_files : filesystem :=
  {| sorted_glob_txt := fun _ => [u "a.txt"; u "b.txt"];
     read_text := fun _ name _ =>
       if str_eqb name (u "a.txt") then Ret []
       else if str_eqb name (u "b.txt") then Ret (u "кот кот пес кот мышь пес")
       else Raise OSError |}.

(** The token sequence of the specification's example. *)
Definition cat_tokens : list str :=
  List.map u ["кот"; "кот"; "пес"; "кот"; "мышь"; "пес"]%string.

(** Sum of the counts of a frequency table. *)
Definition total_count (items : list (str * Z)) : Z :=
  fold_right (fun it acc => snd it + acc) 0 items.

(** Number of ranks a cutoff leaves visible among [d] distinct tokens:
    all of them for 0, the first [top_n] for a positive cutoff, all but
    the last [- top_n] for a negative one. *)
Definition window_size (d top_n : Z) : Z :=
  if top_n =? 0 then d
  else if 0 <? top_n then Z.min top_n d
  else Z.max 0 (d + top_n).

(** The lines [analyze_corpus] prints for one document. *)
Definition document_block (fs : filesystem) (U : unicode) (folder : str)
  (top_n : Z) (name : str) : list line :=
  line_file name
  :: match analyze_file fs U folder name top_n with
     | Ret res => summary res
     | Raise _ => []
     end.

(** A folder with the documents [a.txt] and [c.txt]; [c.txt] is no valid
    UTF-8 but decodes as cp1251, and every other name is missing. *)
Definition odd_files : filesystem :=
  {| sorted_glob_txt := fun _ => [u "a.txt"; u "c.txt"];
     read_text := fun _ name enc =>
       if str_eqb name (u "a.txt") then Ret (u "ёж и ёрш: float float float")
       else if str_eqb name (u "c.txt") then
         match enc with
         | utf_8 => Raise UnicodeDecodeError
         | _ => Ret (u "закон закон закон слово слово число")
         end
       else Raise OSError |}.

(* ================================================================= *)
(** ** Closed forms *)

(** The decision of the loop body of [get_words] on a non-empty token:
    [true] when the token is appended. *)
Definition kept (U : unicode) (stop : list str) (w : str) : bool :=
  negb (set_mem w stop)
  && negb (isdigit U w)
  && negb (len w =? 1)
  && negb ((len w <=? 3) && negb (in_a_ya (hd 0%N w))).

(** The record [analyze_text] builds when no division raises, as a
    function of the visible window. *)
Definition zipf_record (words : list str) (top_n : Z) : ZipfResult :=
  let items := ranked words top_n in
  let rs := List.map fst items in
  let fs := List.map (fun it => rel_freq (len words) (snd (snd it))) items in
  let c_opt := (sum_f_over_r fs rs / sum_inv_sq rs)%Q in
  let theor := List.map (fun r => (c_opt / int r)%Q) rs in
  {| total_words := len words;
     unique_words := len (Counter words);
     ranks := rs;
     freqs_rel := fs;
     freqs_theor := theor;
     C_mean :=
       mean (List.map
               (fun it => (rel_freq (len words) (snd (snd it)) * int (fst it))%Q)
               items);
     C_opt := c_opt;
     mse := (sse fs rs c_opt / int (len rs))%Q;
     top_list := slice_to (rank_window words top_n) 20 |}.

(* ================================================================= *)
(** ** Division and sums *)

Lemma int_zero (z : Z) : (int z == 0)%Q <-> z = 0.
Proof. unfold int, inject_Z, Qeq; simpl; lia. Qed.

Lemma truediv_ok (x y : Q) : ~ (y == 0)%Q -> truediv x y = Ret (x / y)%Q.
Proof.
  intros Hy; unfold truediv.
  destruct (Qeq_bool y 0) eqn:E; [|reflexivity].
  apply Qeq_bool_iff in E; contradiction.
Qed.

Lemma truediv_zero (x y : Q) : (y == 0)%Q -> truediv x y = Raise ZeroDivisionError.
Proof.
  intros Hy; unfold truediv.
  apply Qeq_bool_iff in Hy; now rewrite Hy.
Qed.

Lemma truediv_int_ok (x : Q) (z : Z) : z <> 0 -> truediv x (int z) = Ret (x / int z)%Q.
Proof. intros Hz; apply truediv_ok; now rewrite int_zero. Qed.

Lemma len_nonempty {A : Type} (l : list A) : l <> [] -> len l <> 0.
Proof. destruct l; [congruence|]; unfold len; simpl; lia. Qed.

Lemma fold_sum_shift (l : list Q) (a : Q) :
  (fold_left Qplus l a == a + fold_left Qplus l 0)%Q.
Proof.
  revert a; induction l as [|x l IH]; intros a; simpl.
  - ring.
  - rewrite (IH (a + x)%Q), (IH (0 + x)%Q); ring.
Qed.

Lemma sum_cons (x : Q) (l : list Q) : (sum (x :: l) == x + sum l)%Q.
Proof. unfold sum; simpl; rewrite fold_sum_shift; ring. Qed.

Lemma sum_nonneg (l : list Q) : Forall (fun x => 0 <= x)%Q l -> (0 <= sum l)%Q.
Proof.
  induction 1 as [|x l Hx _ IH].
  - unfold sum; simpl; lra.
  - rewrite sum_cons; lra.
Qed.

Lemma sum_pos (l : list Q) :
  l <> [] -> Forall (fun x => 0 < x)%Q l -> (0 < sum l)%Q.
Proof.
  intros Hne Hall; destruct Hall as [|x l Hx Hl]; [congruence|].
  rewrite sum_cons.
  assert (0 <= sum l)%Q.
  { apply sum_nonneg; eapply Forall_impl; [|exact Hl]; intros; simpl in *; lra. }
  lra.
Qed.

(* ================================================================= *)
(** ** Loops that do not raise *)

Lemma comprehension_ok {A B : Type} (f : A -> result B) (g : A -> B) (l : list A) :
  Forall (fun x => f x = Ret (g x)) l -> comprehension f l = Ret (List.map g l).
Proof.
  induction 1 as [|x l Hx _ IH]; simpl; [reflexivity|].
  now rewrite Hx, IH.
Qed.

Lemma append_loop_ok {A B : Type} (f : A -> result B) (g : A -> B) (l : list A) :
  Forall (fun x => f x = Ret (g x)) l ->
  forall acc,
    for_each (fun acc x => t <- f x ;; Ret (acc ++ [t])) l acc
    = Ret (acc ++ List.map g l).
Proof.
  induction 1 as [|x l Hx _ IH]; intros acc; simpl.
  - now rewrite app_nil_r.
  - rewrite Hx; simpl; rewrite IH, <- app_assoc; reflexivity.
Qed.

Lemma experimental_loop (total : Z) (items : list (Z * (str * Z))) :
  total <> 0 ->
  forall rs fs cs,
    for_each
      (fun '(ranks, freqs_rel, const_fr) '(rank, (word, freq)) =>
         f_rel <- truediv (int freq) (int total) ;;
         Ret (ranks ++ [rank], freqs_rel ++ [f_rel],
              const_fr ++ [(f_rel * int rank)%Q]))
      items (rs, fs, cs)
    = Ret (rs ++ List.map fst items,
           fs ++ List.map (fun it => rel_freq total (snd (snd it))) items,
           cs ++ List.map (fun it => (rel_freq total (snd (snd it)) * int (fst it))%Q) items).
Proof.
  intros Ht; induction items as [|[rank [word freq]] items IH]; intros rs fs cs.
  - simpl; now rewrite !app_nil_r.
  - simpl; rewrite truediv_int_ok by assumption; simpl.
    rewrite IH, <- !app_assoc; reflexivity.
Qed.

Lemma experimental_ok (total : Z) (items : list (Z * (str * Z))) :
  total <> 0 ->
  experimental total items
  = Ret (List.map fst items,
         List.map (fun it => rel_freq total (snd (snd it))) items,
         List.map (fun it => (rel_freq total (snd (snd it)) * int (fst it))%Q) items).
Proof. intros Ht; unfold experimental; now rewrite experimental_loop. Qed.

(* ================================================================= *)
(** ** Ranks *)

Lemma enumerate_fst {A : Type} (l : list A) (start : Z) :
  List.map fst (enumerate start l)
  = List.map (fun i => start + Z.of_nat i) (seq 0 (length l)).
Proof.
  revert start; induction l as [|x l IH]; intros start; simpl; [reflexivity|].
  f_equal; [lia|].
  rewrite IH, <- seq_shift, map_map.
  apply map_ext; intros; lia.
Qed.

Lemma enumerate_snd {A : Type} (l : list A) (start : Z) :
  List.map snd (enumerate start l) = l.
Proof. revert start; induction l; intros; simpl; congruence. Qed.

Lemma enumerate_length {A : Type} (l : list A) (start : Z) :
  length (enumerate start l) = length l.
Proof. revert start; induction l; intros; simpl; auto. Qed.


Lemma enumerate_ranks_pos {A : Type} (l : list A) (start : Z) :
  0 < start -> Forall (fun r => 0 < r) (List.map fst (enumerate start l)).
Proof.
  revert start; induction l as [|x l IH]; intros start Hs; simpl; constructor.
  - exact Hs.
  - apply IH; lia.
Qed.

Lemma int_pos (z : Z) : 0 < z -> (0 < int z)%Q.
Proof. unfold int, inject_Z, Qlt; simpl; lia. Qed.

Lemma inv_sq_pos (r : Z) : 0 < r -> (0 < 1 / int (r * r))%Q.
Proof.
  intros Hr.
  assert (H : (0 < int (r * r))%Q) by (apply int_pos; nia).
  unfold Qdiv; rewrite Qmult_1_l; now apply Qinv_lt_0_compat.
Qed.

Lemma slice_to_nil {A : Type} (n : Z) : slice_to (@nil A) n = [].
Proof. unfold slice_to; destruct (0 <=? n); now rewrite firstn_nil. Qed.

Lemma rank_window_nil (top_n : Z) : rank_window [] top_n = [].
Proof.
  unfold rank_window; simpl.
  destruct (top_n =? 0); [reflexivity|apply slice_to_nil].
Qed.

Lemma rank_window_words (words : list str) (top_n : Z) :
  rank_window words top_n <> [] -> words <> [].
Proof. intros H ->; apply H, rank_window_nil. Qed.

Lemma ranked_ranks (words : list str) (top_n : Z) :
  List.map fst (ranked words top_n)
  = List.map (fun i => 1 + Z.of_nat i) (seq 0 (length (rank_window words top_n))).
Proof. apply enumerate_fst. Qed.

Lemma ranked_ranks_pos (words : list str) (top_n : Z) :
  Forall (fun r => 0 < r) (List.map fst (ranked words top_n)).
Proof. apply enumerate_ranks_pos; lia. Qed.

Lemma squares_sse (fs : list Q) (rs : list Z) (C : Q) :
  List.map (fun '(f, t) => ((f - t) ^ 2)%Q)
    (combine fs (List.map (fun r => (C / int r)%Q) rs))
  = List.map (fun '(f, r) => ((f - C / int r) ^ 2)%Q) (combine fs rs).
Proof.
  revert rs; induction fs as [|f fs IH]; intros [|r rs]; simpl; try reflexivity.
  now rewrite IH.
Qed.

Lemma analyze_text_ok (words : list str) (top_n : Z) :
  rank_window words top_n <> [] ->
  analyze_text words top_n = Ret (zipf_record words top_n).
Proof.
  intros Hw.
  assert (Htot : len words <> 0) by (apply len_nonempty; eapply rank_window_words; eauto).
  assert (Hitems : ranked words top_n <> []).
  { unfold ranked; destruct (rank_window words top_n); [congruence|discriminate]. }
  pose proof (ranked_ranks_pos words top_n) as Hpos.
  unfold analyze_text, zipf_record.
  fold (ranked words top_n).
  rewrite experimental_ok by assumption; simpl bind.
  set (items := ranked words top_n) in *.
  set (rs := List.map fst items) in *.
  set (fs := List.map (fun it => rel_freq (len words) (snd (snd it))) items).
  assert (Hrs : rs <> []) by (subst rs; destruct items; [congruence|discriminate]).
  rewrite truediv_int_ok.
  2:{ apply len_nonempty; destruct items; [congruence|discriminate]. }
  simpl bind.
  rewrite (comprehension_ok _ (fun '(f, r) => (f / int r)%Q)).
  2:{ apply Forall_forall; intros [f r] Hin.
      apply in_combine_r in Hin.
      rewrite Forall_forall in Hpos; specialize (Hpos _ Hin).
      apply truediv_int_ok; lia. }
  simpl bind.
  rewrite (comprehension_ok _ (fun r => (1 / int (r * r))%Q)).
  2:{ eapply Forall_impl; [|exact Hpos]; intros r Hr; simpl in *.
      apply truediv_int_ok; nia. }
  simpl bind.
  fold (sum_f_over_r fs rs); fold (sum_inv_sq rs).
  rewrite truediv_ok.
  2:{ assert (0 < sum_inv_sq rs)%Q; [|lra].
      apply sum_pos.
      - destruct rs; [congruence|discriminate].
      - apply Forall_map; eapply Forall_impl; [|exact Hpos].
        intros r Hr; now apply inv_sq_pos. }
  simpl bind.
  rewrite (append_loop_ok _ (fun r => (sum_f_over_r fs rs / sum_inv_sq rs / int r)%Q)).
  2:{ eapply Forall_impl; [|exact Hpos]; intros r Hr; simpl in *.
      apply truediv_int_ok; lia. }
  simpl bind.
  rewrite truediv_int_ok by (now apply len_nonempty).
  rewrite squares_sse; reflexivity.
Qed.

Lemma analyze_text_empty (words : list str) (top_n : Z) :
  rank_window words top_n = [] ->
  analyze_text words top_n = Raise ZeroDivisionError.
Proof. intros H; unfold analyze_text; rewrite H; reflexivity. Qed.

(* ================================================================= *)
(** ** Strings and dicts *)

Lemma str_eqb_eq (a b : str) : str_eqb a b = true <-> a = b.
Proof. unfold str_eqb; destruct (list_eq_dec N.eq_dec a b); split; congruence. Qed.

Lemma str_eqb_neq (a b : str) : str_eqb a b = false <-> a <> b.
Proof. unfold str_eqb; destruct (list_eq_dec N.eq_dec a b); split; congruence. Qed.

Lemma str_eqb_refl (a : str) : str_eqb a a = true.
Proof. now apply str_eqb_eq. Qed.

Section DictFacts.
Context {V : Type}.
Implicit Types (d : dict V) (k : str) (v : V).

Lemma dict_get_In d k : dict_get d k <> None <-> In k (List.map fst d).
Proof.
  induction d as [|[k' v'] d IH]; simpl.
  - split; [congruence|tauto].
  - destruct (str_eqb k' k) eqn:E.
    + apply str_eqb_eq in E; split; [auto|discriminate].
    + apply str_eqb_neq in E; rewrite IH; split; [auto|intros [?|?]; [contradiction|auto]].
Qed.

Lemma dict_get_None d k : dict_get d k = None <-> ~ In k (List.map fst d).
Proof.
  rewrite <- dict_get_In; destruct (dict_get d k); split; try congruence.
  intros H; exfalso; apply H; discriminate.
Qed.

Lemma dict_set_new d k v : dict_get d k = None -> dict_set d k v = d ++ [(k, v)].
Proof.
  induction d as [|[k' v'] d IH]; simpl; [reflexivity|].
  destruct (str_eqb k' k); [discriminate|].
  intros H; now rewrite IH.
Qed.

Lemma dict_set_keys d k v :
  dict_get d k <> None -> List.map fst (dict_set d k v) = List.map fst d.
Proof.
  induction d as [|[k' v'] d IH]; simpl; [congruence|].
  destruct (str_eqb k' k); simpl; [reflexivity|].
  intros H; now rewrite IH.
Qed.

Lemma dict_get_set d k v k' :
  dict_get (dict_set d k v) k' = if str_eqb k k' then Some v else dict_get d k'.
Proof.
  induction d as [|[k0 v0] d IH]; simpl.
  - reflexivity.
  - destruct (str_eqb k0 k) eqn:E0; simpl.
    + apply str_eqb_eq in E0; subst k0.
      destruct (str_eqb k k'); reflexivity.
    + destruct (str_eqb k0 k') eqn:E1.
      * apply str_eqb_eq in E1; subst k0.
        apply str_eqb_neq in E0.
        destruct (str_eqb k k') eqn:E2; [apply str_eqb_eq in E2; congruence|reflexivity].
      * exact IH.
Qed.

Lemma dict_get_of_In d k v :
  NoDup (List.map fst d) -> In (k, v) d -> dict_get d k = Some v.
Proof.
  induction d as [|[k' v'] d IH]; simpl; [tauto|].
  intros Hnd [[= -> ->]|Hin].
  - now rewrite str_eqb_refl.
  - inversion_clear Hnd as [|? ? Hk Hd].
    destruct (str_eqb k' k) eqn:E.
    + apply str_eqb_eq in E; subst k'.
      exfalso; apply Hk; change k with (fst (k, v)); now apply in_map.
    + now apply IH.
Qed.
End DictFacts.

(* ================================================================= *)
(** ** [Counter] *)

Lemma Counter_snoc (ws : list str) (w : str) :
  Counter (ws ++ [w]) = count_element (Counter ws) w.
Proof. unfold Counter; now rewrite fold_left_app. Qed.

Lemma occurrences_snoc (k w : str) (ws : list str) :
  occurrences k (ws ++ [w]) = occurrences k ws + (if str_eqb w k then 1 else 0).
Proof. induction ws as [|x ws IH]; simpl; [lia|rewrite IH; lia]. Qed.

Lemma occurrences_nonneg (k : str) (ws : list str) : 0 <= occurrences k ws.
Proof. induction ws as [|x ws IH]; simpl; [lia|destruct (str_eqb x k); lia]. Qed.

Lemma occurrences_pos (k : str) (ws : list str) : 0 < occurrences k ws <-> In k ws.
Proof.
  induction ws as [|x ws IH]; simpl; [split; [lia|tauto]|].
  pose proof (occurrences_nonneg k ws).
  destruct (str_eqb x k) eqn:E.
  - apply str_eqb_eq in E; split; [auto|lia].
  - apply str_eqb_neq in E; rewrite <- IH; split; [intros; right; lia|intros [?|?]; [contradiction|lia]].
Qed.

(** The counter holds, for every token of the sequence, its number of
    occurrences, and nothing else. *)
Lemma Counter_get (ws : list str) (k : str) :
  dict_get (Counter ws) k
  = if occurrences k ws =? 0 then None else Some (occurrences k ws).
Proof.
  induction ws as [|w ws IH] using rev_ind; [reflexivity|].
  rewrite Counter_snoc, occurrences_snoc; unfold count_element.
  rewrite dict_get_set.
  pose proof (occurrences_nonneg k ws) as Hk.
  destruct (str_eqb w k) eqn:E.
  - apply str_eqb_eq in E; subst w.
    unfold dict_get_default; rewrite IH.
    destruct (occurrences k ws =? 0) eqn:E0.
    + apply Z.eqb_eq in E0; rewrite E0; reflexivity.
    + destruct (occurrences k ws + 1 =? 0) eqn:E1; [lia|reflexivity].
  - rewrite IH, Z.add_0_r; reflexivity.
Qed.

Lemma Counter_keys_In (ws : list str) (k : str) :
  In k (List.map fst (Counter ws)) <-> In k ws.
Proof.
  rewrite <- dict_get_In, Counter_get, <- occurrences_pos.
  pose proof (occurrences_nonneg k ws).
  destruct (occurrences k ws =? 0) eqn:E; split; try congruence; try lia.
Qed.

(** The keys of the counter, in order: a token already seen keeps its
    place, a new token goes to the end. *)
Lemma Counter_keys_snoc (ws : list str) (w : str) :
  List.map fst (Counter (ws ++ [w]))
  = if in_dec (list_eq_dec N.eq_dec) w ws
    then List.map fst (Counter ws)
    else List.map fst (Counter ws) ++ [w].
Proof.
  rewrite Counter_snoc; unfold count_element.
  destruct (in_dec (list_eq_dec N.eq_dec) w ws) as [Hin|Hnin].
  - apply dict_set_keys, dict_get_In, Counter_keys_In, Hin.
  - rewrite dict_set_new, map_app; [reflexivity|].
    apply dict_get_None; now rewrite Counter_keys_In.
Qed.

Lemma Counter_keys_NoDup (ws : list str) : NoDup (List.map fst (Counter ws)).
Proof.
  induction ws as [|w ws IH] using rev_ind; [constructor|].
  rewrite Counter_keys_snoc.
  destruct (in_dec (list_eq_dec N.eq_dec) w ws) as [Hin|Hnin]; [exact IH|].
  apply NoDup_app; repeat split; auto.
  - constructor; [tauto|constructor].
  - intros x Hx [<-|[]]; now apply Hnin, Counter_keys_In.
Qed.

Lemma Counter_In (ws : list str) (k : str) (c : Z) :
  In (k, c) (Counter ws) -> c = occurrences k ws /\ 0 < c.
Proof.
  intros Hin.
  apply dict_get_of_In in Hin; [|apply Counter_keys_NoDup].
  rewrite Counter_get in Hin.
  pose proof (occurrences_nonneg k ws).
  destruct (occurrences k ws =? 0) eqn:E; [discriminate|].
  injection Hin as <-; split; [reflexivity|lia].
Qed.

Lemma Counter_distinct (ws : list str) : len (Counter ws) = distinct ws.
Proof.
  unfold distinct, len; f_equal.
  rewrite <- (length_map fst).
  apply Permutation_length, NoDup_Permutation.
  - apply Counter_keys_NoDup.
  - apply NoDup_nodup.
  - intros k; rewrite Counter_keys_In, nodup_In; tauto.
Qed.

(* ================================================================= *)
(** ** Relative order in a list *)

Section Before.
Context {A : Type}.
Implicit Types (l : list A) (a b x : A).


Lemma before_cons x l a b :
  before (x :: l) a b <-> (a = x /\ In b l) \/ before l a b.
Proof.
  split.
  - intros (l1 & l2 & l3 & E); destruct l1 as [|y l1]; simpl in E.
    + injection E as -> ->; left; split; [reflexivity|].
      apply in_or_app; right; left; reflexivity.
    + injection E as -> ->; right; now exists l1, l2, l3.
  - intros [[-> Hb]|(l1 & l2 & l3 & ->)].
    + apply in_split in Hb as (l2 & l3 & ->); now exists [], l2, l3.
    + now exists (x :: l1), l2, l3.
Qed.





End Before.



(* ================================================================= *)
(** ** The stable descending sort

    [sorted_desc] returns a permutation of its argument, in descending
    order of the key, in which items with equal keys keep their relative
    order: the three properties that determine the result of Python's
    [sorted(..., reverse=True)]. *)

Section SortedDesc.
Context {A : Type} (key : A -> Z).
Implicit Types (l s : list A) (a b x : A).

Lemma insert_desc_In x s b : In b (insert_desc key x s) <-> b = x \/ In b s.
Proof.
  induction s as [|y s IH]; simpl.
  - intuition.
  - destruct (key x <? key y); simpl; [rewrite IH|]; intuition.
Qed.

Lemma sorted_desc_In l b : In b (sorted_desc key l) <-> In b l.
Proof.
  induction l as [|x l IH]; simpl; [tauto|].
  rewrite insert_desc_In, IH; intuition.
Qed.

Lemma insert_desc_length x s : length (insert_desc key x s) = S (length s).
Proof.
  induction s as [|y s IH]; simpl; [reflexivity|].
  destruct (key x <? key y); simpl; auto.
Qed.

Lemma sorted_desc_length l : length (sorted_desc key l) = length l.
Proof. induction l; simpl; [reflexivity|rewrite insert_desc_length; auto]. Qed.

Lemma insert_desc_perm x s : Permutation (insert_desc key x s) (x :: s).
Proof.
  induction s as [|y s IH]; simpl; [reflexivity|].
  destruct (key x <? key y); [|reflexivity].
  rewrite IH; apply perm_swap.
Qed.

Lemma sorted_desc_perm l : Permutation (sorted_desc key l) l.
Proof.
  induction l as [|x l IH]; simpl; [reflexivity|].
  now rewrite insert_desc_perm, IH.
Qed.




End SortedDesc.

(* ================================================================= *)
(** ** First encounters *)


Lemma first_index_absent (a : str) (ws : list str) :
  ~ In a ws -> first_index a ws = length ws.
Proof.
  induction ws as [|x ws IH]; simpl; [reflexivity|].
  intros H; destruct (str_eqb x a) eqn:E.
  - apply str_eqb_eq in E; tauto.
  - rewrite IH; tauto.
Qed.




(* ================================================================= *)
(** ** Least squares *)

Lemma inv_sq (r : Z) : (1 / int (r * r) == / int r * / int r)%Q.
Proof.
  unfold int; rewrite inject_Z_mult; unfold Qdiv.
  rewrite Qinv_mult_distr; ring.
Qed.

Lemma sse_cons (f : Q) (r : Z) (fs : list Q) (rs : list Z) (C : Q) :
  (sse (f :: fs) (r :: rs) C == (f - C / int r) ^ 2 + sse fs rs C)%Q.
Proof. unfold sse; simpl combine; simpl List.map; apply sum_cons. Qed.

Lemma sum_f_over_r_cons (f : Q) (r : Z) (fs : list Q) (rs : list Z) :
  (sum_f_over_r (f :: fs) (r :: rs) == f / int r + sum_f_over_r fs rs)%Q.
Proof. unfold sum_f_over_r; simpl combine; simpl List.map; apply sum_cons. Qed.

Lemma sum_inv_sq_cons (r : Z) (rs : list Z) :
  (sum_inv_sq (r :: rs) == / int r * / int r + sum_inv_sq rs)%Q.
Proof. unfold sum_inv_sq; simpl List.map; rewrite sum_cons, inv_sq; reflexivity. Qed.

(** The residual sum is a quadratic in [C]: the difference of two of its
    values factors. *)
Lemma sse_difference (fs : list Q) (rs : list Z) (C C' : Q) :
  length fs = length rs ->
  (sse fs rs C - sse fs rs C'
   == (C - C') * ((C + C') * sum_inv_sq rs - 2 * sum_f_over_r fs rs))%Q.
Proof.
  revert rs; induction fs as [|f fs IH]; intros [|r rs] Hlen; try discriminate.
  - unfold sse, sum_inv_sq, sum_f_over_r, sum; simpl; ring.
  - injection Hlen as Hlen; specialize (IH rs Hlen).
    rewrite !sse_cons, sum_f_over_r_cons, sum_inv_sq_cons.
    setoid_replace ((f - C / int r) ^ 2 + sse fs rs C
                    - ((f - C' / int r) ^ 2 + sse fs rs C'))%Q
      with ((f - C / int r) ^ 2 - (f - C' / int r) ^ 2
            + (sse fs rs C - sse fs rs C'))%Q by ring.
    rewrite IH; unfold Qdiv; ring.
Qed.

Lemma least_squares_minimum (fs : list Q) (rs : list Z) (C : Q) :
  length fs = length rs -> (0 < sum_inv_sq rs)%Q ->
  (sse fs rs (sum_f_over_r fs rs / sum_inv_sq rs) <= sse fs rs C)%Q.
Proof.
  intros Hlen HD.
  pose proof (sse_difference fs rs C (sum_f_over_r fs rs / sum_inv_sq rs) Hlen) as Hd.
  set (B := sum_f_over_r fs rs) in *; set (D := sum_inv_sq rs) in *.
  assert (Hsq : ((C - B / D) * ((C + B / D) * D - 2 * B)
                 == D * ((C - B / D) * (C - B / D)))%Q) by (field; lra).
  rewrite Hsq in Hd.
  assert (0 <= D * ((C - B / D) * (C - B / D)))%Q.
  { apply Qmult_le_0_compat; [lra|].
    destruct (Qlt_le_dec (C - B / D) 0) as [Hn|Hp].
    - setoid_replace ((C - B / D) * (C - B / D))%Q
        with ((- (C - B / D)) * (- (C - B / D)))%Q by ring.
      apply Qmult_le_0_compat; lra.
    - now apply Qmult_le_0_compat. }
  lra.
Qed.

(* ================================================================= *)
(** ** The tokenizer *)

Lemma in_a_ya_spec (c : codepoint) :
  in_a_ya c = true <-> (1072 <= c <= 1103)%N.
Proof.
  unfold in_a_ya.
  change (chr "а") with 1072%N; change (chr "я") with 1103%N.
  rewrite andb_true_iff, !N.leb_le; tauto.
Qed.

Lemma in_a_ya_cyrillic (c : codepoint) :
  in_a_ya c = true -> cyrillic_letter c = true.
Proof.
  rewrite in_a_ya_spec; intros [H1 H2]; unfold cyrillic_letter.
  apply orb_true_iff; left; apply andb_true_iff; rewrite !N.leb_le; lia.
Qed.

Lemma findall_run_nonempty (U : unicode) (text cur w : str) :
  In w (findall_run U cur text) -> w <> [].
Proof.
  revert cur; induction text as [|c rest IH]; intros cur; simpl.
  - destruct cur; simpl; [tauto|intros [<-|[]]; discriminate].
  - destruct (word_char U c); [apply IH|].
    destruct cur; [apply IH|].
    intros [<-|H]; [discriminate|eapply IH; eauto].
Qed.

Lemma findall_w_nonempty (U : unicode) (text w : str) :
  In w (findall_w U text) -> w <> [].
Proof. apply findall_run_nonempty. Qed.

Lemma filter_step_kept (U : unicode) (stop : list str) (w : str) :
  w <> [] ->
  filter_step U stop w = Ret (if kept U stop w then Some w else None).
Proof.
  intros Hw; unfold filter_step, kept.
  destruct (set_mem w stop); [reflexivity|].
  destruct (isdigit U w); [reflexivity|].
  destruct (len w =? 1); [reflexivity|].
  destruct w as [|c w]; [congruence|]; simpl hd; simpl first_char.
  destruct (len (c :: w) <=? 3); simpl; [|reflexivity].
  destruct (in_a_ya c); reflexivity.
Qed.

Lemma filter_loop_acc (U : unicode) (stop : list str) (words : list str) :
  Forall (fun w => w <> []) words ->
  forall cleaned,
    for_each
      (fun cleaned w =>
         r <- filter_step U stop w ;;
         match r with
         | None => Ret cleaned
         | Some w' => Ret (cleaned ++ [w'])
         end)
      words cleaned
    = Ret (cleaned ++ filter (kept U stop) words).
Proof.
  induction 1 as [|w words Hw _ IH]; intros cleaned; simpl.
  - now rewrite app_nil_r.
  - rewrite filter_step_kept by assumption; simpl.
    destruct (kept U stop w); simpl; rewrite IH; [|reflexivity].
    now rewrite <- app_assoc.
Qed.

Lemma filter_loop_kept (U : unicode) (stop : list str) (words : list str) :
  Forall (fun w => w <> []) words ->
  filter_loop U stop words = Ret (filter (kept U stop) words).
Proof. intros Hall; unfold filter_loop; now rewrite filter_loop_acc. Qed.

(** [get_words] never raises: it returns the candidates that pass [kept],
    in order. *)
Lemma get_words_kept (U : unicode) (text filename : str) :
  get_words U text filename
  = Ret (filter (kept U (stop_words filename)) (findall_w U (lower U text))).
Proof.
  unfold get_words; apply filter_loop_kept, Forall_forall.
  intros w; apply findall_w_nonempty.
Qed.

(* ================================================================= *)
(** ** The corpus loop *)

Section Corpus.
Variables (fs : filesystem) (U : unicode) (folder : str) (top_n : Z).

Lemma corpus_loop_all_ok (paths : list str) :
  Forall (fun n => exists r, analyze_file fs U folder n top_n = Ret r) paths ->
  forall out results,
  exists out' results',
    corpus_loop fs U folder top_n paths out results = (out', Ret results')
    /\ (forall n, In n paths ->
          exists r, analyze_file fs U folder n top_n = Ret r
                    /\ dict_get results' n = Some r)
    /\ (forall n, ~ In n paths -> dict_get results' n = dict_get results n).
Proof.
  induction 1 as [|name paths [r Hr] _ IH]; intros out results; simpl.
  - exists out, results; repeat split; tauto.
  - rewrite Hr.
    destruct (IH ((out ++ [line_file name]) ++ summary r) (dict_set results name r))
      as (out' & results' & Hloop & Hin & Hout).
    exists out', results'; split; [exact Hloop|split].
    + intros n [<-|Hn].
      * exists r; split; [exact Hr|].
        destruct (in_dec (list_eq_dec N.eq_dec) name paths) as [Hi|Hi].
        -- destruct (Hin _ Hi) as (r' & Hr' & Hget); congruence.
        -- rewrite (Hout _ Hi), dict_get_set, str_eqb_refl; reflexivity.
      * auto.
    + intros n Hn; rewrite Hout by tauto.
      rewrite dict_get_set.
      destruct (str_eqb name n) eqn:E; [|reflexivity].
      apply str_eqb_eq in E; tauto.
Qed.

Lemma corpus_loop_first_failure (pre post : list str) (name : str) (e : exn) :
  Forall (fun n => exists r, analyze_file fs U folder n top_n = Ret r) pre ->
  analyze_file fs U folder name top_n = Raise e ->
  forall out results,
  exists out',
    corpus_loop fs U folder top_n (pre ++ name :: post) out results
    = (out' ++ [line_file name], Raise e)
    /\ (forall n, In (line_file n) out' -> In (line_file n) out \/ In n pre).
Proof.
  intros Hpre Hfail; induction Hpre as [|p pre [r Hr] _ IH]; intros out results; simpl.
  - rewrite Hfail; exists out; split; [reflexivity|auto].
  - rewrite Hr.
    destruct (IH ((out ++ [line_file p]) ++ summary r) (dict_set results p r))
      as (out' & Hloop & Hlines).
    exists out'; split; [exact Hloop|].
    intros n Hn; apply Hlines in Hn as [Hn|Hn]; [|auto].
    apply in_app_or in Hn as [Hn|Hn].
    + apply in_app_or in Hn as [Hn|[[= ->]|[]]]; auto.
    + exfalso; unfold summary in Hn; simpl in Hn.
      repeat (destruct Hn as [Hn|Hn]; [discriminate|]).
      apply in_map_iff in Hn as ([i [w f]] & Hn & _); discriminate.
Qed.
End Corpus.

(* ================================================================= *)
(** ** The visible window *)

Lemma analyze_text_Ret (words : list str) (top_n : Z) (res : ZipfResult) :
  analyze_text words top_n = Ret res ->
  rank_window words top_n <> [] /\ res = zipf_record words top_n.
Proof.
  intros H; destruct (rank_window words top_n) as [|it w] eqn:E.
  - rewrite analyze_text_empty in H by assumption; discriminate.
  - split; [discriminate|].
    rewrite analyze_text_ok in H by (rewrite E; discriminate).
    now injection H.
Qed.

Lemma slice_to_all {A : Type} (l : list A) (n : Z) :
  len l <= n -> slice_to l n = l.
Proof.
  unfold len, slice_to; intros H.
  destruct (0 <=? n) eqn:E; [|lia].
  apply firstn_all2; lia.
Qed.

Lemma most_common_length (c : dict Z) : length (most_common c) = length c.
Proof. apply sorted_desc_length. Qed.

Lemma most_common_len (words : list str) :
  len (most_common (Counter words)) = distinct words.
Proof. unfold len; rewrite most_common_length; apply Counter_distinct. Qed.

Lemma distinct_pos (words : list str) : words <> [] -> 0 < distinct words.
Proof.
  destruct words as [|w words]; [congruence|]; intros _.
  rewrite <- Counter_distinct; unfold len.
  assert (H : In w (List.map fst (Counter (w :: words))))
    by (apply Counter_keys_In; now left).
  destruct (Counter (w :: words)); [destruct H|simpl; lia].
Qed.

Lemma rank_window_zero (words : list str) :
  rank_window words 0 = most_common (Counter words).
Proof. reflexivity. Qed.

Lemma rank_window_all (words : list str) (top_n : Z) :
  distinct words <= top_n -> rank_window words top_n = most_common (Counter words).
Proof.
  intros H; unfold rank_window.
  destruct (top_n =? 0); [reflexivity|].
  apply slice_to_all; now rewrite most_common_len.
Qed.

Lemma rank_window_nonempty (words : list str) (top_n : Z) :
  words <> [] -> 0 <= top_n -> rank_window words top_n <> [].
Proof.
  intros Hw Hn; pose proof (distinct_pos words Hw) as Hd.
  rewrite <- most_common_len in Hd; unfold len in Hd.
  unfold rank_window, slice_to.
  destruct (top_n =? 0) eqn:E0.
  - destruct (most_common (Counter words)); [simpl in Hd; lia|discriminate].
  - apply Z.eqb_neq in E0.
    destruct (0 <=? top_n) eqn:E; [|lia].
    destruct (most_common (Counter words)); [simpl in Hd; lia|].
    destruct (Z.to_nat top_n) eqn:En; [lia|discriminate].
Qed.

Lemma rank_window_nonempty_neg (words : list str) (top_n : Z) :
  top_n < 0 -> - distinct words < top_n -> rank_window words top_n <> [].
Proof.
  intros Hneg Hn; rewrite <- most_common_len in Hn; unfold len in Hn.
  unfold rank_window, slice_to.
  destruct (top_n =? 0) eqn:E0; [apply Z.eqb_eq in E0; lia|].
  destruct (0 <=? top_n) eqn:E; [apply Z.leb_le in E; lia|].
  destruct (most_common (Counter words)) as [|x l]; [simpl in Hn; lia|].
  destruct (length (x :: l) - Z.to_nat (- top_n))%nat eqn:En; [|discriminate].
  exfalso; apply Nat.sub_0_le in En; lia.
Qed.

(** The window is empty exactly when there is no token or a negative
    cutoff removes every rank. *)
Lemma rank_window_empty_iff (words : list str) (top_n : Z) :
  rank_window words top_n = [] <-> words = [] \/ top_n <= - distinct words.
Proof.
  split.
  - intros H; destruct words as [|w ws]; [now left|right].
    destruct (Z_lt_le_dec (- distinct (w :: ws)) top_n) as [Hlt|Hle]; [|exact Hle].
    exfalso; destruct (Z_lt_le_dec top_n 0) as [Hneg|Hpos].
    + now apply (rank_window_nonempty_neg (w :: ws) top_n).
    + apply (rank_window_nonempty (w :: ws) top_n); [discriminate|lia|exact H].
  - intros [->|Hle]; [apply rank_window_nil|].
    destruct words as [|w ws]; [apply rank_window_nil|].
    pose proof (distinct_pos (w :: ws)) as Hd.
    assert (Hlen : len (most_common (Counter (w :: ws))) = distinct (w :: ws))
      by apply most_common_len.
    unfold len in Hlen; unfold rank_window, slice_to.
    destruct (top_n =? 0) eqn:E0.
    { apply Z.eqb_eq in E0; assert (0 < distinct (w :: ws)) by (apply Hd; discriminate); lia. }
    destruct (0 <=? top_n) eqn:E.
    { apply Z.leb_le in E; assert (0 < distinct (w :: ws)) by (apply Hd; discriminate); lia. }
    replace (length (most_common (Counter (w :: ws))) - Z.to_nat (- top_n))%nat
      with O by lia.
    reflexivity.
Qed.


Lemma In_firstn {A : Type} (n : nat) (l : list A) (x : A) :
  In x (firstn n l) -> In x l.
Proof.
  intros H; rewrite <- (firstn_skipn n l); apply in_or_app; now left.
Qed.

Lemma rank_window_In (words : list str) (top_n : Z) (w : str) (c : Z) :
  In (w, c) (rank_window words top_n) -> c = occurrences w words /\ 0 < c.
Proof.
  intros H; apply Counter_In.
  apply (sorted_desc_In snd).
  unfold rank_window, slice_to in H.
  destruct (top_n =? 0); [exact H|].
  destruct (0 <=? top_n); eapply In_firstn; exact H.
Qed.


Lemma ranked_length (words : list str) (top_n : Z) :
  length (ranked words top_n) = length (rank_window words top_n).
Proof. apply enumerate_length. Qed.

Lemma analyze_text_window (words : list str) (n m : Z) :
  rank_window words n = rank_window words m ->
  analyze_text words n = analyze_text words m.
Proof. intros H; unfold analyze_text; now rewrite H. Qed.

(* ================================================================= *)
(** ** The empty window (C1) *)

(** C1, as the code has it: whenever the visible rank list is empty (in
    particular for the empty token sequence), [analyze_text] raises
    Python's [ZeroDivisionError], at the division that computes [C_mean];
    no result record is returned, and the exception reaches the caller:
    the analysis of a document whose tokens leave the window empty raises
    it too. *)
Theorem empty_window_raises_ZeroDivisionError (words : list str) (top_n : Z) :
  rank_window words top_n = [] ->
  analyze_text words top_n = Raise ZeroDivisionError
  /\ (forall res, analyze_text words top_n <> Ret res)
  /\ (forall fs U folder name text,
         read_text_safely fs folder name = Ret text ->
         get_words U text name = Ret words ->
         analyze_file fs U folder name top_n = Raise ZeroDivisionError).
Proof.
  intros H; rewrite (analyze_text_empty _ _ H).
  split; [reflexivity|split; [discriminate|]].
  intros fs U folder name text Hread Hwords.
  unfold analyze_file; rewrite Hread; simpl; rewrite Hwords; simpl.
  now apply analyze_text_empty.
Qed.

Lemma empty_window_raises_ZeroDivisionError_witness :
  rank_window [] 200 = []
  /\ analyze_text [] 200 = Raise ZeroDivisionError.
Proof.
  split; [reflexivity|].
  apply (empty_window_raises_ZeroDivisionError [] 200); reflexivity.
Defined.

(** Counterexample to C1 as the specification states it: on the empty
    token sequence the visible rank list is empty and what [analyze_text]
    raises is an arithmetic error, not a condition of its own. *)
Lemma empty_input_raises_arithmetic_error :
  rank_window [] 200 = []
  /\ analyze_text [] 200 = Raise ZeroDivisionError
  /\ arithmetic_error ZeroDivisionError = true
  /\ ~ (forall words top_n,
          rank_window words top_n = [] ->
          exists e, analyze_text words top_n = Raise e /\ arithmetic_error e = false).
Proof.
  repeat split.
  intros H; destruct (H [] 200 eq_refl) as (e & He & Harith).
  injection He as <-; discriminate.
Qed.

(* ================================================================= *)
(** ** The least-squares estimator (C2) *)

(** C2, in exact arithmetic: on a non-empty rank window [analyze_text]
    returns a record whose relative frequencies are [count_r / total],
    whose [C_opt] is the closed form [(Σ f_r / r) / (Σ 1 / r²)], and this
    value, with every operation of the formula carried out exactly,
    minimizes [Σ (f_r - C/r)²] over every scalar [C].  (The binary64 value
    CPython computes is the same formula with every operation rounded; it
    need not minimize: see [C_opt_binary64_not_minimal].) *)
Theorem C_opt_least_squares (words : list str) (top_n : Z) :
  rank_window words top_n <> [] ->
  exists res,
    analyze_text words top_n = Ret res
    /\ ranks res = List.map fst (ranked words top_n)
    /\ freqs_rel res
       = List.map (fun it => rel_freq (len words) (snd (snd it))) (ranked words top_n)
    /\ C_opt res
       = (sum_f_over_r (freqs_rel res) (ranks res) / sum_inv_sq (ranks res))%Q
    /\ forall C : Q,
         (sse (freqs_rel res) (ranks res) (C_opt res)
          <= sse (freqs_rel res) (ranks res) C)%Q.
Proof.
  intros Hw; exists (zipf_record words top_n).
  split; [now apply analyze_text_ok|].
  repeat split; intros C; simpl.
  apply least_squares_minimum; [now rewrite !length_map|].
  apply sum_pos.
  - unfold ranked; destruct (rank_window words top_n); [congruence|discriminate].
  - apply Forall_map; eapply Forall_impl; [|apply ranked_ranks_pos].
    intros r Hr; now apply inv_sq_pos.
Qed.

Lemma C_opt_least_squares_witness :
  rank_window cat_tokens 10 <> []
  /\ exists res,
       analyze_text cat_tokens 10 = Ret res
       /\ ranks res = List.map fst (ranked cat_tokens 10)
       /\ freqs_rel res
          = List.map (fun it => rel_freq (len cat_tokens) (snd (snd it)))
              (ranked cat_tokens 10)
       /\ C_opt res
          = (sum_f_over_r (freqs_rel res) (ranks res) / sum_inv_sq (ranks res))%Q
       /\ forall C : Q,
            (sse (freqs_rel res) (ranks res) (C_opt res)
             <= sse (freqs_rel res) (ranks res) C)%Q.
Proof.
  assert (H : rank_window cat_tokens 10 <> []) by (vm_compute; discriminate).
  split; [exact H|exact (C_opt_least_squares cat_tokens 10 H)].
Defined.

(** Counterexample to C2 as the specification states it: on the tokens
    кот кот пес кот мышь пес the [C_opt] that the program computes in
    binary64 does not minimize [Σ (f_r - C/r)²]: for the frequencies the
    program holds, the next float above [C_opt] has a strictly smaller
    sum of squared residuals.  This is so with the [sum] of either Python
    (plain before 3.12, compensated since). *)
Lemma C_opt_binary64_not_minimal :
  (exists e,
      Binary64.estimators Binary64.sum cat_tokens 10 = Ret e
      /\ (sse (List.map Binary64.exact (Binary64.freqs_rel e)) (Binary64.ranks e)
            (Binary64.exact (PrimFloat.next_up (Binary64.C_opt e)))
          < sse (List.map Binary64.exact (Binary64.freqs_rel e)) (Binary64.ranks e)
              (Binary64.exact (Binary64.C_opt e)))%Q)
  /\ (exists e,
         Binary64.estimators Binary64.sum_neumaier cat_tokens 10 = Ret e
         /\ (sse (List.map Binary64.exact (Binary64.freqs_rel e)) (Binary64.ranks e)
               (Binary64.exact (PrimFloat.next_up (Binary64.C_opt e)))
             < sse (List.map Binary64.exact (Binary64.freqs_rel e)) (Binary64.ranks e)
                 (Binary64.exact (Binary64.C_opt e)))%Q).
Proof.
  split; eexists; (split; [vm_compute; reflexivity|vm_compute; reflexivity]).
Qed.

(* ================================================================= *)
(** ** The mean estimator (C3) *)

(** C3: on a non-empty rank window [C_mean] is the arithmetic mean over
    the ranks of [f_r * r]; on the tokens кот кот пес кот мышь пес with
    [top_n = 10] the counts are кот 3, пес 2, мышь 1, the ranked list is
    (1, кот, 3), (2, пес, 2), (3, мышь, 1), the total is 6 and [C_mean] is
    (3/6*1 + 2/6*2 + 1/6*3)/3 = 5/9, which is 0.556 to three decimals. *)
Theorem C_mean_is_mean :
  (forall words top_n,
      rank_window words top_n <> [] ->
      exists res,
        analyze_text words top_n = Ret res
        /\ C_mean res
           = mean (List.map
                     (fun it => (rel_freq (len words) (snd (snd it)) * int (fst it))%Q)
                     (ranked words top_n)))
  /\ Counter cat_tokens = [(u "кот", 3); (u "пес", 2); (u "мышь", 1)]
  /\ ranked cat_tokens 10
     = [(1, (u "кот", 3)); (2, (u "пес", 2)); (3, (u "мышь", 1))]
  /\ exists res,
       analyze_text cat_tokens 10 = Ret res
       /\ total_words res = 6
       /\ (C_mean res == (3 / 6 * 1 + 2 / 6 * 2 + 1 / 6 * 3) / 3)%Q
       /\ (C_mean res == 5 # 9)%Q
       /\ (Qabs (C_mean res - (556 # 1000)) < 1 # 2000)%Q.
Proof.
  split; [|split; [|split]].
  - intros words top_n Hw; exists (zipf_record words top_n).
    split; [now apply analyze_text_ok|reflexivity].
  - reflexivity.
  - reflexivity.
  - exists (zipf_record cat_tokens 10); split; [|split; [|split; [|split]]].
    + apply analyze_text_ok; vm_compute; discriminate.
    + reflexivity.
    + vm_compute; reflexivity.
    + vm_compute; reflexivity.
    + vm_compute; reflexivity.
Qed.

Lemma C_mean_is_mean_witness :
  rank_window cat_tokens 10 <> []
  /\ exists res,
       analyze_text cat_tokens 10 = Ret res
       /\ C_mean res
          = mean (List.map
                    (fun it => (rel_freq (len cat_tokens) (snd (snd it)) * int (fst it))%Q)
                    (ranked cat_tokens 10)).
Proof.
  assert (H : rank_window cat_tokens 10 <> []) by (vm_compute; discriminate).
  split; [exact H|exact (proj1 C_mean_is_mean cat_tokens 10 H)].
Defined.

(* ================================================================= *)
(** ** The ranked list (C4) *)



(* ================================================================= *)
(** ** The theoretical frequencies (C5) *)

(** C5: in every record [analyze_text] returns for a non-empty token
    sequence, the theoretical frequencies are as many as the ranks, the
    entry at rank [r] is exactly [C_opt / r] for the [C_opt] of the same
    record, and that [C_opt] is the least-squares closed form; a record is
    returned whenever the rank window is non-empty. *)
Theorem freqs_theor_from_C_opt (words : list str) (top_n : Z) :
  words <> [] ->
  (forall res,
      analyze_text words top_n = Ret res ->
      length (freqs_theor res) = length (ranks res)
      /\ ranks res = List.map fst (ranked words top_n)
      /\ freqs_theor res = List.map (fun r => (C_opt res / int r)%Q) (ranks res)
      /\ (forall i r,
             nth_error (ranks res) i = Some r ->
             nth_error (freqs_theor res) i = Some (C_opt res / int r)%Q)
      /\ C_opt res
         = (sum_f_over_r (freqs_rel res) (ranks res) / sum_inv_sq (ranks res))%Q)
  /\ (rank_window words top_n <> [] -> exists res, analyze_text words top_n = Ret res).
Proof.
  intros _; split.
  - intros res Hres; apply analyze_text_Ret in Hres as [_ ->]; simpl.
    split; [now rewrite !length_map|].
    split; [reflexivity|].
    split; [reflexivity|].
    split; [|reflexivity].
    intros i r Hi; rewrite nth_error_map, Hi; reflexivity.
  - intros Hw; exists (zipf_record words top_n); now apply analyze_text_ok.
Qed.

Lemma freqs_theor_from_C_opt_witness :
  cat_tokens <> []
  /\ exists res,
       analyze_text cat_tokens 10 = Ret res
       /\ length (freqs_theor res) = length (ranks res)
       /\ freqs_theor res = List.map (fun r => (C_opt res / int r)%Q) (ranks res).
Proof.
  assert (H : cat_tokens <> []) by (vm_compute; discriminate).
  split; [exact H|].
  exists (zipf_record cat_tokens 10).
  assert (Hres : analyze_text cat_tokens 10 = Ret (zipf_record cat_tokens 10))
    by (vm_compute; reflexivity).
  split; [exact Hres|].
  destruct (proj1 (freqs_theor_from_C_opt cat_tokens 10 H) _ Hres)
    as (Hlen & _ & Hmap & _).
  split; [exact Hlen|exact Hmap].
Defined.

(* ================================================================= *)
(** ** The filter (C6, C7) *)

(** C6: for every text and file name (hence every stop-word
    configuration), [get_words] returns, and what it returns holds no
    candidate token of length 1, none made of digits only, and none of
    length 2 or 3 whose first character is not a Cyrillic letter. *)
Theorem get_words_discards (U : unicode) (text filename w : str) :
  In w (findall_w U (lower U text)) ->
  (len w = 1
   \/ Forall (fun c => digit_char U c = true) w
   \/ (2 <= len w <= 3
       /\ exists c, hd_error w = Some c /\ cyrillic_letter c = false)) ->
  exists cleaned,
    get_words U text filename = Ret cleaned /\ ~ In w cleaned.
Proof.
  intros Hcand Hcase; rewrite get_words_kept; eexists; split; [reflexivity|].
  intros Hin; apply filter_In in Hin as [_ Hk].
  apply findall_w_nonempty in Hcand.
  unfold kept in Hk.
  apply andb_true_iff in Hk as [Hk Hshort].
  apply andb_true_iff in Hk as [Hk Hone].
  apply andb_true_iff in Hk as [_ Hdigit].
  destruct Hcase as [H1|[Hd|(Hlen & c & Hc & Hcyr)]].
  - apply Z.eqb_eq in H1; rewrite H1 in Hone; discriminate.
  - assert (Hdig : isdigit U w = true).
    { destruct w; [congruence|]; unfold isdigit; now apply forallb_forall, Forall_forall. }
    rewrite Hdig in Hdigit; discriminate.
  - destruct w as [|c' w]; [discriminate|]; injection Hc as ->.
    assert (Hle : (len (c :: w) <=? 3) = true) by (apply Z.leb_le; lia).
    simpl hd in Hshort; rewrite Hle in Hshort.
    destruct (in_a_ya c) eqn:E; [|discriminate].
    apply in_a_ya_cyrillic in E; congruence.
Qed.

Lemma get_words_discards_witness :
  exists cleaned,
    get_words basic_unicode (u "кот 42 ab я") (u "arina.txt") = Ret cleaned
    /\ ~ In (u "ab") cleaned.
Proof.
  apply (get_words_discards basic_unicode (u "кот 42 ab я") (u "arina.txt") (u "ab")).
  - vm_compute; tauto.
  - right; right; split; [vm_compute; split; discriminate|].
    exists 97%N; split; reflexivity.
Defined.

Lemma russian_letter_not_io (c : codepoint) :
  c <> chr "ё" -> russian_letter c = in_a_ya c.
Proof.
  intros H; unfold russian_letter.
  destruct (N.eqb_spec c (chr "ё")); [contradiction|apply orb_false_r].
Qed.

(** C7, as the code has it by design: a candidate token whose first
    character is not ё is discarded only when it is a stop word, or is
    made of digits, or has length 1, or has length at most 3 and a first
    character that is not a Russian letter; in particular a candidate of
    length 2 or 3 that starts with a Russian letter, is no stop word and
    is not made of digits is kept.  (Tokens that start with ё are left
    out: see [short_io_word_dropped].) *)
Theorem get_words_keeps (U : unicode) (text filename w : str) (c : codepoint) :
  In w (findall_w U (lower U text)) ->
  hd_error w = Some c ->
  c <> chr "ё" ->
  exists cleaned,
    get_words U text filename = Ret cleaned
    /\ (~ In w cleaned ->
        set_mem w (stop_words filename) = true
        \/ isdigit U w = true
        \/ len w = 1
        \/ (1 <= len w <= 3 /\ russian_letter c = false))
    /\ (2 <= len w <= 3 ->
        russian_letter c = true ->
        set_mem w (stop_words filename) = false ->
        isdigit U w = false ->
        In w cleaned).
Proof.
  intros Hcand Hc Hio; rewrite get_words_kept; eexists; split; [reflexivity|].
  rewrite (russian_letter_not_io c Hio).
  destruct w as [|c' w]; [discriminate|]; injection Hc as ->.
  assert (Hlen : 1 <= len (c :: w)) by (unfold len; simpl; lia).
  split.
  - intros Hout.
    assert (Hk : kept U (stop_words filename) (c :: w) = false).
    { destruct (kept U (stop_words filename) (c :: w)) eqn:E; [|reflexivity].
      exfalso; apply Hout, filter_In; auto. }
    unfold kept in Hk; simpl hd in Hk.
    destruct (set_mem (c :: w) (stop_words filename)); [now left|].
    destruct (isdigit U (c :: w)); [now right; left|].
    destruct (len (c :: w) =? 1) eqn:E1; [apply Z.eqb_eq in E1; now right; right; left|].
    destruct (len (c :: w) <=? 3) eqn:E3; [|discriminate].
    apply Z.leb_le in E3.
    destruct (in_a_ya c); [discriminate|].
    right; right; right; split; [lia|reflexivity].
  - intros Hshort Hrus Hstop Hdig; apply filter_In; split; [exact Hcand|].
    unfold kept; simpl hd; rewrite Hstop, Hdig, Hrus.
    destruct (len (c :: w) =? 1) eqn:E1; [apply Z.eqb_eq in E1; lia|].
    now rewrite andb_false_r.
Qed.

Lemma get_words_keeps_witness :
  exists cleaned,
    get_words basic_unicode (u "Кот и ум") (u "arina.txt") = Ret cleaned
    /\ (~ In (u "ум") cleaned ->
        set_mem (u "ум") (stop_words (u "arina.txt")) = true
        \/ isdigit basic_unicode (u "ум") = true
        \/ len (u "ум") = 1
        \/ (1 <= len (u "ум") <= 3 /\ russian_letter (chr "у") = false))
    /\ (2 <= len (u "ум") <= 3 ->
        russian_letter (chr "у") = true ->
        set_mem (u "ум") (stop_words (u "arina.txt")) = false ->
        isdigit basic_unicode (u "ум") = false ->
        In (u "ум") cleaned).
Proof.
  apply (get_words_keeps basic_unicode (u "Кот и ум") (u "arina.txt") (u "ум") (chr "у")).
  - vm_compute; tauto.
  - reflexivity.
  - vm_compute; discriminate.
Defined.

(** Counterexample to C7 as the specification states it: the candidate
    token їж has two characters, its first character is the Cyrillic
    letter ї (U+0457), it is no stop word and has no digit, and
    [get_words] drops it. *)
Lemma short_cyrillic_word_dropped :
  findall_w basic_unicode (lower basic_unicode (u "їж")) = [u "їж"]
  /\ set_mem (u "їж") (stop_words (u "text.txt")) = false
  /\ isdigit basic_unicode (u "їж") = false
  /\ len (u "їж") = 2
  /\ hd_error (u "їж") = Some (chr "ї")
  /\ cyrillic_letter (chr "ї") = true
  /\ get_words basic_unicode (u "їж") (u "text.txt") = Ret [].
Proof. repeat split; vm_compute; reflexivity. Qed.

(** The Russian letter ё (U+0451) lies outside ['а'..'я']: the candidate
    token ёж, which is no stop word and has no digit, is dropped like a
    short Latin abbreviation. *)
Lemma short_io_word_dropped :
  findall_w basic_unicode (lower basic_unicode (u "Ёж")) = [u "ёж"]
  /\ set_mem (u "ёж") (stop_words (u "text.txt")) = false
  /\ isdigit basic_unicode (u "ёж") = false
  /\ len (u "ёж") = 2
  /\ hd_error (u "ёж") = Some (chr "ё")
  /\ cyrillic_letter (chr "ё") = true
  /\ in_a_ya (chr "ё") = false
  /\ get_words basic_unicode (u "Ёж") (u "text.txt") = Ret [].
Proof. repeat split; vm_compute; reflexivity. Qed.

(* ================================================================= *)
(** ** The corpus run (C8) *)

(** C8, as the code has it: the documents are processed in sorted order
    and the first one whose loading or analysis raises ends the run with
    that exception: the last line printed is that document's header, no
    later document is touched and no result mapping is returned.  A run
    in which no document fails returns a mapping that holds, for every
    document, its own result and nothing else. *)
Theorem corpus_run_stops_at_first_failure
  (fs : filesystem) (U : unicode) (folder : str) (top_n : Z) :
  (forall pre name post e,
      sorted_glob_txt fs folder = pre ++ name :: post ->
      Forall (fun n => exists r, analyze_file fs U folder n top_n = Ret r) pre ->
      analyze_file fs U folder name top_n = Raise e ->
      exists out,
        analyze_corpus fs U folder top_n = (out ++ [line_file name], Raise e)
        /\ forall n, In (line_file n) out -> In n pre)
  /\ (Forall (fun n => exists r, analyze_file fs U folder n top_n = Ret r)
        (sorted_glob_txt fs folder) ->
      exists out results,
        analyze_corpus fs U folder top_n = (out, Ret results)
        /\ (forall n, In n (sorted_glob_txt fs folder) ->
              exists r, analyze_file fs U folder n top_n = Ret r
                        /\ dict_get results n = Some r)
        /\ (forall n, ~ In n (sorted_glob_txt fs folder) ->
              dict_get results n = None)).
Proof.
  unfold analyze_corpus; split.
  - intros pre name post e -> Hpre Hfail.
    destruct (corpus_loop_first_failure fs U folder top_n pre post name e
                Hpre Hfail [] []) as (out & Hrun & Hlines).
    exists out; split; [exact Hrun|].
    intros n Hn; destruct (Hlines n Hn) as [[]|H]; exact H.
  - intros Hall.
    destruct (corpus_loop_all_ok fs U folder top_n _ Hall [] [])
      as (out & results & Hrun & Hin & Hout).
    exists out, results; repeat split; auto.
Qed.

Lemma corpus_run_stops_at_first_failure_witness :
  exists out,
    analyze_corpus two_files basic_unicode (u "corpus") 200
    = (out ++ [line_file (u "a.txt")], Raise ZeroDivisionError)
    /\ forall n, In (line_file n) out -> In n [].
Proof.
  apply (proj1 (corpus_run_stops_at_first_failure two_files basic_unicode (u "corpus") 200)
           [] (u "a.txt") [u "b.txt"] ZeroDivisionError).
  - reflexivity.
  - constructor.
  - vm_compute; reflexivity.
Defined.

(** Counterexample to C8 as the specification states it: in the folder
    of [two_files] the document b.txt can be loaded and analyzed, but the
    empty document a.txt before it makes the whole run raise
    [ZeroDivisionError]: b.txt gets no result. *)
Lemma corpus_failure_not_isolated :
  sorted_glob_txt two_files (u "corpus") = [u "a.txt"; u "b.txt"]
  /\ analyze_file two_files basic_unicode (u "corpus") (u "a.txt") 200
     = Raise ZeroDivisionError
  /\ (exists res,
        analyze_file two_files basic_unicode (u "corpus") (u "b.txt") 200 = Ret res)
  /\ analyze_corpus two_files basic_unicode (u "corpus") 200
     = ([line_file (u "a.txt")], Raise ZeroDivisionError).
Proof.
  split; [reflexivity|split; [vm_compute; reflexivity|split]].
  - eexists; vm_compute; reflexivity.
  - vm_compute; reflexivity.
Qed.

(* ================================================================= *)
(** ** Cutoffs beyond the table and the cutoff 0 (C9, C10) *)

(** C9, as the code has it: for every non-empty token sequence and every
    positive cutoff that exceeds the number of distinct tokens,
    [analyze_text] returns a record over all ranks (the full ranked list)
    and raises nothing; for every token sequence, empty or not, the
    outcome is the one computed without truncation. *)
Theorem top_n_beyond_distinct (words : list str) (top_n : Z) :
  0 < top_n -> distinct words < top_n ->
  rank_window words top_n = most_common (Counter words)
  /\ analyze_text words top_n = analyze_text words 0
  /\ (words <> [] ->
      exists res,
        analyze_text words top_n = Ret res
        /\ ranks res = List.map fst (enumerate 1 (most_common (Counter words)))
        /\ len (ranks res) = distinct words).
Proof.
  intros Hpos Hn.
  assert (Hall : rank_window words top_n = most_common (Counter words))
    by (apply rank_window_all; lia).
  assert (Hsame : rank_window words top_n = rank_window words 0)
    by (now rewrite Hall, rank_window_zero).
  split; [exact Hall|split].
  - now apply analyze_text_window.
  - intros Hw; exists (zipf_record words top_n); split.
    + apply analyze_text_ok, rank_window_nonempty; [exact Hw|lia].
    + unfold zipf_record, ranked; simpl; rewrite Hall; split; [reflexivity|].
      unfold len; now rewrite length_map, enumerate_length, <- most_common_len.
Qed.

Lemma top_n_beyond_distinct_witness :
  0 < 10 /\ distinct cat_tokens < 10
  /\ rank_window cat_tokens 10 = most_common (Counter cat_tokens)
  /\ analyze_text cat_tokens 10 = analyze_text cat_tokens 0.
Proof.
  assert (H1 : 0 < 10) by lia.
  assert (H2 : distinct cat_tokens < 10) by (vm_compute; reflexivity).
  split; [exact H1|split; [exact H2|]].
  destruct (top_n_beyond_distinct cat_tokens 10 H1 H2) as (Ha & Hb & _).
  split; [exact Ha|exact Hb].
Defined.

(** Counterexample to C9 as the specification states it: on the empty
    token sequence the cutoff 10 is positive and exceeds the number of
    distinct tokens, 0, and [analyze_text] raises. *)
Lemma top_n_beyond_distinct_empty :
  0 < 10 /\ distinct [] < 10 /\ analyze_text [] 10 = Raise ZeroDivisionError.
Proof. repeat split. Qed.

(** C10: with [top_n = 0] nothing is truncated.  The window is the whole
    frequency table, one rank per distinct token; for a non-empty token
    sequence it is not the empty window [sorted_items[:0]], and
    [analyze_text] returns a record whose ranks, relative frequencies,
    estimators and mean squared error are those of the whole table.  The
    outcome is that of any cutoff that reaches the number of distinct
    tokens. *)
Theorem top_n_zero_no_truncation (words : list str) :
  rank_window words 0 = most_common (Counter words)
  /\ len (rank_window words 0) = distinct words
  /\ (forall n, distinct words <= n -> analyze_text words 0 = analyze_text words n)
  /\ (words <> [] ->
      rank_window words 0 <> slice_to (most_common (Counter words)) 0
      /\ exists res,
           analyze_text words 0 = Ret res
           /\ ranks res = List.map fst (enumerate 1 (most_common (Counter words)))
           /\ len (ranks res) = distinct words
           /\ freqs_rel res
              = List.map (fun it => rel_freq (len words) (snd it))
                  (most_common (Counter words))
           /\ C_mean res
              = mean (List.map
                        (fun it => (rel_freq (len words) (snd (snd it)) * int (fst it))%Q)
                        (enumerate 1 (most_common (Counter words))))
           /\ C_opt res
              = (sum_f_over_r (freqs_rel res) (ranks res) / sum_inv_sq (ranks res))%Q
           /\ mse res
              = (sse (freqs_rel res) (ranks res) (C_opt res) / int (distinct words))%Q).
Proof.
  split; [reflexivity|split; [apply most_common_len|split]].
  { intros n Hn; apply analyze_text_window.
    now rewrite rank_window_zero, rank_window_all. }
  intros Hw; split.
  - intros H; apply (rank_window_nonempty words 0 Hw); [lia|].
    now rewrite H.
  - exists (zipf_record words 0); split.
    + apply analyze_text_ok, rank_window_nonempty; [exact Hw|lia].
    + unfold zipf_record, ranked; rewrite rank_window_zero; simpl.
      assert (Hlen : len (List.map fst (enumerate 1 (most_common (Counter words))))
                     = distinct words).
      { unfold len; now rewrite length_map, enumerate_length, <- most_common_len. }
      rewrite Hlen; repeat split.
      rewrite <- (enumerate_snd (most_common (Counter words)) 1) at 2.
      now rewrite map_map.
Qed.

Lemma top_n_zero_no_truncation_witness :
  cat_tokens <> []
  /\ rank_window cat_tokens 0 <> slice_to (most_common (Counter cat_tokens)) 0.
Proof.
  assert (H : cat_tokens <> []) by (vm_compute; discriminate).
  split; [exact H|].
  exact (proj1 (proj2 (proj2 (proj2 (top_n_zero_no_truncation cat_tokens))) H)).
Defined.

(* ================================================================= *)
(** ** More on [get_words] *)

Lemma before_filter {A : Type} (f : A -> bool) (l : list A) (a b : A) :
  before (filter f l) a b -> before l a b.
Proof.
  induction l as [|x l IH]; simpl; [auto|].
  destruct (f x); intros H.
  - apply before_cons in H as [[-> Hb]|H]; apply before_cons.
    + left; split; [reflexivity|]; now apply filter_In in Hb.
    + right; auto.
  - apply before_cons; right; auto.
Qed.

Lemma occurrences_filter (f : str -> bool) (w : str) (ws : list str) :
  occurrences w (filter f ws) = if f w then occurrences w ws else 0.
Proof.
  induction ws as [|x ws IH]; cbn [filter occurrences]; [now destruct (f w)|].
  destruct (str_eqb x w) eqn:E.
  - apply str_eqb_eq in E; subst x.
    destruct (f w) eqn:Ef; cbn [occurrences]; rewrite ?str_eqb_refl, IH; lia.
  - destruct (f x); cbn [occurrences]; rewrite ?E, IH; destruct (f w); lia.
Qed.

Lemma kept_true (U : unicode) (stop : list str) (w : str) :
  kept U stop w = true <->
  set_mem w stop = false /\ isdigit U w = false /\ len w <> 1
  /\ (len w <= 3 -> in_a_ya (hd 0%N w) = true).
Proof.
  unfold kept; rewrite !andb_true_iff, !negb_true_iff, andb_false_iff.
  rewrite negb_false_iff, Z.eqb_neq, Z.leb_gt.
  split.
  - intros [[[Hs Hd] H1] [H3|Ha]]; repeat split; auto; lia.
  - intros (Hs & Hd & H1 & H3); repeat split; auto.
    destruct (Z_le_gt_dec (len w) 3); [right; auto|left; lia].
Qed.

(** X1. [get_words] never raises ([w[0]] is only taken of a non-empty
    match).  Every token it returns is a candidate that is no stop word,
    is not made of digits, has at least two characters and, when it has
    at most three, starts with a letter of ['а'..'я']; the tokens keep the
    order and the multiplicity they have among the candidates. *)
Theorem get_words_returns_filtered (U : unicode) (text filename : str) :
  exists cleaned,
    get_words U text filename = Ret cleaned
    /\ (forall w, In w cleaned ->
          In w (findall_w U (lower U text))
          /\ set_mem w (stop_words filename) = false
          /\ isdigit U w = false
          /\ 2 <= len w
          /\ (len w <= 3 -> exists c, hd_error w = Some c /\ in_a_ya c = true))
    /\ (forall a b, before cleaned a b ->
          before (findall_w U (lower U text)) a b)
    /\ (forall w, In w cleaned ->
          occurrences w cleaned = occurrences w (findall_w U (lower U text))).
Proof.
  rewrite get_words_kept; eexists; split; [reflexivity|split; [|split]].
  - intros w Hin; apply filter_In in Hin as [Hc Hk].
    pose proof (findall_w_nonempty _ _ _ Hc) as Hne.
    apply kept_true in Hk as (Hs & Hd & H1 & H3).
    split; [exact Hc|split; [exact Hs|split; [exact Hd|]]].
    destruct w as [|c w]; [congruence|].
    split; [unfold len in *; simpl in *; lia|].
    intros Hle; exists c; split; [reflexivity|now apply H3].
  - intros a b; apply before_filter.
  - intros w Hin; apply filter_In in Hin as [_ Hk].
    now rewrite occurrences_filter, Hk.
Qed.

(** X2. Whatever the Unicode tables, the text and the file, a candidate
    of at most three characters that starts with the letter ё is not
    returned: ё (U+0451) lies outside ['а'..'я']. *)
Theorem short_io_words_dropped (U : unicode) (text filename w rest : str) :
  In w (findall_w U (lower U text)) ->
  w = chr "ё" :: rest ->
  len w <= 3 ->
  exists cleaned, get_words U text filename = Ret cleaned /\ ~ In w cleaned.
Proof.
  intros Hc -> Hlen; rewrite get_words_kept; eexists; split; [reflexivity|].
  intros Hin; apply filter_In in Hin as [_ Hk].
  apply kept_true in Hk as (_ & _ & _ & H3).
  specialize (H3 Hlen); simpl in H3; vm_compute in H3; discriminate.
Qed.

Lemma short_io_words_dropped_witness :
  exists cleaned,
    get_words basic_unicode (u "Ёрш и кот") (u "text.txt") = Ret cleaned
    /\ ~ In (u "ёрш") cleaned.
Proof.
  apply (short_io_words_dropped basic_unicode (u "Ёрш и кот") (u "text.txt")
           (u "ёрш") (u "рш")).
  - vm_compute; tauto.
  - reflexivity.
  - vm_compute; discriminate.
Defined.

(** X3. A candidate of four characters or more is returned, as often as
    it occurs, unless it is a stop word or made of digits: the script of
    its first character plays no part. *)
Theorem long_tokens_kept (U : unicode) (text filename w : str) :
  In w (findall_w U (lower U text)) ->
  4 <= len w ->
  set_mem w (stop_words filename) = false ->
  isdigit U w = false ->
  exists cleaned,
    get_words U text filename = Ret cleaned
    /\ In w cleaned
    /\ occurrences w cleaned = occurrences w (findall_w U (lower U text)).
Proof.
  intros Hc Hlen Hs Hd; rewrite get_words_kept; eexists; split; [reflexivity|].
  assert (Hk : kept U (stop_words filename) w = true)
    by (apply kept_true; repeat split; auto; lia).
  split; [apply filter_In; auto|now rewrite occurrences_filter, Hk].
Qed.

Lemma long_tokens_kept_witness :
  exists cleaned,
    get_words basic_unicode (u "float x; FLOAT y") (u "text.txt") = Ret cleaned
    /\ In (u "float") cleaned
    /\ occurrences (u "float") cleaned
       = occurrences (u "float")
           (findall_w basic_unicode (lower basic_unicode (u "float x; FLOAT y"))).
Proof.
  apply (long_tokens_kept basic_unicode (u "float x; FLOAT y") (u "text.txt") (u "float")).
  - vm_compute; tauto.
  - vm_compute; discriminate.
  - reflexivity.
  - reflexivity.
Defined.

Lemma findall_run_no_word (U : unicode) (text : str) :
  Forall (fun c => word_char U c = false) text -> findall_run U [] text = [].
Proof. induction 1 as [|c text Hc _ IH]; simpl; [reflexivity|now rewrite Hc]. Qed.

(** X5. A text without a single word character (the empty text, blanks,
    punctuation) gives no token, and the analysis of a document with such
    a text raises [ZeroDivisionError], whatever the cutoff. *)
Theorem wordless_text (U : unicode) (text filename : str) :
  Forall (fun c => word_char U c = false) (lower U text) ->
  get_words U text filename = Ret []
  /\ forall fs folder top_n,
       read_text_safely fs folder filename = Ret text ->
       analyze_file fs U folder filename top_n = Raise ZeroDivisionError.
Proof.
  intros Hno.
  assert (Hw : get_words U text filename = Ret []).
  { rewrite get_words_kept; unfold findall_w; now rewrite findall_run_no_word. }
  split; [exact Hw|].
  intros fs folder top_n Hread; unfold analyze_file.
  rewrite Hread; simpl; rewrite Hw; simpl.
  apply analyze_text_empty, rank_window_nil.
Qed.

Lemma wordless_text_witness :
  get_words basic_unicode (u " ... !? ") (u "a.txt") = Ret []
  /\ forall fs folder top_n,
       read_text_safely fs folder (u "a.txt") = Ret (u " ... !? ") ->
       analyze_file fs basic_unicode folder (u "a.txt") top_n = Raise ZeroDivisionError.
Proof.
  apply (wordless_text basic_unicode (u " ... !? ") (u "a.txt")).
  vm_compute; repeat constructor.
Defined.

(* ================================================================= *)
(** ** [read_text_safely] *)

Lemma undecodable_dec (r : result str) :
  r = Raise UnicodeDecodeError \/ r <> Raise UnicodeDecodeError.
Proof. destruct r as [t|[]]; (now left) || (right; discriminate). Qed.

(** X6. [read_text_safely] returns what the first of utf-8, cp1251 and
    windows-1251 gives that is not a [UnicodeDecodeError]: a text, or any
    other exception, which is not retried.  When the three encodings all
    fail to decode it raises [UnicodeDecodeError].  Its outcome is always
    the outcome of one of the reads. *)
Theorem read_text_safely_fallback (fs : filesystem) (folder name : str) :
  (forall r,
      read_text fs folder name utf_8 = r ->
      r <> Raise UnicodeDecodeError ->
      read_text_safely fs folder name = r)
  /\ (forall r,
         read_text fs folder name utf_8 = Raise UnicodeDecodeError ->
         read_text fs folder name cp1251 = r ->
         r <> Raise UnicodeDecodeError ->
         read_text_safely fs folder name = r)
  /\ (forall r,
         read_text fs folder name utf_8 = Raise UnicodeDecodeError ->
         read_text fs folder name cp1251 = Raise UnicodeDecodeError ->
         read_text fs folder name windows_1251 = r ->
         r <> Raise UnicodeDecodeError ->
         read_text_safely fs folder name = r)
  /\ (read_text fs folder name utf_8 = Raise UnicodeDecodeError ->
      read_text fs folder name cp1251 = Raise UnicodeDecodeError ->
      read_text fs folder name windows_1251 = Raise UnicodeDecodeError ->
      read_text_safely fs folder name = Raise UnicodeDecodeError)
  /\ (exists enc, read_text_safely fs folder name = read_text fs folder name enc).
Proof.
  assert (H1 : forall r,
             read_text fs folder name utf_8 = r ->
             r <> Raise UnicodeDecodeError ->
             read_text_safely fs folder name = r).
  { intros r H Hr; unfold read_text_safely; simpl; rewrite H.
    destruct r as [t|[]]; try reflexivity; congruence. }
  assert (H2 : forall r,
             read_text fs folder name utf_8 = Raise UnicodeDecodeError ->
             read_text fs folder name cp1251 = r ->
             r <> Raise UnicodeDecodeError ->
             read_text_safely fs folder name = r).
  { intros r Hu H Hr; unfold read_text_safely; simpl; rewrite Hu, H.
    destruct r as [t|[]]; try reflexivity; congruence. }
  assert (H3 : forall r,
             read_text fs folder name utf_8 = Raise UnicodeDecodeError ->
             read_text fs folder name cp1251 = Raise UnicodeDecodeError ->
             read_text fs folder name windows_1251 = r ->
             r <> Raise UnicodeDecodeError ->
             read_text_safely fs folder name = r).
  { intros r Hu Hc H Hr; unfold read_text_safely; simpl; rewrite Hu, Hc, H.
    destruct r as [t|[]]; try reflexivity; congruence. }
  assert (H4 : read_text fs folder name utf_8 = Raise UnicodeDecodeError ->
               read_text fs folder name cp1251 = Raise UnicodeDecodeError ->
               read_text fs folder name windows_1251 = Raise UnicodeDecodeError ->
               read_text_safely fs folder name = Raise UnicodeDecodeError).
  { intros Hu Hc Hw; unfold read_text_safely; simpl; now rewrite Hu, Hc, Hw. }
  split; [exact H1|split; [exact H2|split; [exact H3|split; [exact H4|]]]].
  destruct (undecodable_dec (read_text fs folder name utf_8)) as [Hu|Hu].
  2:{ exists utf_8; now apply H1. }
  destruct (undecodable_dec (read_text fs folder name cp1251)) as [Hc|Hc].
  2:{ exists cp1251; now apply H2. }
  destruct (undecodable_dec (read_text fs folder name windows_1251)) as [Hw|Hw].
  2:{ exists windows_1251; now apply H3. }
  exists utf_8; rewrite Hu; now apply H4.
Qed.

Lemma read_text_safely_fallback_witness :
  read_text_safely odd_files (u "corpus") (u "c.txt")
  = Ret (u "закон закон закон слово слово число").
Proof.
  apply (proj1 (proj2 (read_text_safely_fallback odd_files (u "corpus") (u "c.txt")))).
  - reflexivity.
  - reflexivity.
  - discriminate.
Defined.

(* ================================================================= *)
(** ** More on [analyze_text] *)

(** X7. [analyze_text] raises exactly when the token list is empty or a
    negative cutoff removes every rank ([top_n <= - distinct]); what it
    raises is always [ZeroDivisionError]; in every other case it returns
    a record. *)
Theorem analyze_text_raises_iff (words : list str) (top_n : Z) :
  (analyze_text words top_n = Raise ZeroDivisionError
   <-> words = [] \/ top_n <= - distinct words)
  /\ (forall e, analyze_text words top_n = Raise e -> e = ZeroDivisionError)
  /\ ((exists res, analyze_text words top_n = Ret res)
      <-> words <> [] /\ - distinct words < top_n).
Proof.
  destruct (rank_window words top_n) as [|it w] eqn:E.
  - pose proof (proj1 (rank_window_empty_iff words top_n) E) as Hcase.
    rewrite (analyze_text_empty _ _ E).
    split; [tauto|split; [congruence|]].
    split; [intros [res H]; discriminate|].
    intros [Hw Hn]; destruct Hcase; [contradiction|lia].
  - assert (Hne : rank_window words top_n <> []) by (rewrite E; discriminate).
    assert (Hcase : ~ (words = [] \/ top_n <= - distinct words))
      by (intros H; apply Hne, rank_window_empty_iff, H).
    rewrite (analyze_text_ok _ _ Hne).
    split; [split; [discriminate|tauto]|split; [discriminate|]].
    split; [intros _|intros _; eauto].
    split; [tauto|lia].
Qed.

Lemma slice_to_len {A : Type} (l : list A) (n : Z) :
  len (slice_to l n)
  = if 0 <=? n then Z.min n (len l) else Z.max 0 (len l + n).
Proof.
  unfold len, slice_to; destruct (0 <=? n) eqn:E; rewrite length_firstn.
  - apply Z.leb_le in E; lia.
  - apply Z.leb_gt in E; lia.
Qed.

Lemma rank_window_len (words : list str) (top_n : Z) :
  len (rank_window words top_n) = window_size (distinct words) top_n.
Proof.
  unfold rank_window, window_size.
  destruct (top_n =? 0) eqn:E0; [apply most_common_len|].
  apply Z.eqb_neq in E0.
  rewrite slice_to_len, most_common_len.
  destruct (0 <=? top_n) eqn:E; destruct (0 <? top_n) eqn:E'; try reflexivity; lia.
Qed.

(** X8. In a record returned by [analyze_text] the ranks, the relative
    and the theoretical frequencies are lists of one length: the number
    of ranks the cutoff leaves visible among the distinct tokens, which
    is at least 1 and at most the number of distinct tokens. *)
Theorem window_sizes (words : list str) (top_n : Z) (res : ZipfResult) :
  analyze_text words top_n = Ret res ->
  len (ranks res) = window_size (distinct words) top_n
  /\ length (freqs_rel res) = length (ranks res)
  /\ length (freqs_theor res) = length (ranks res)
  /\ 1 <= len (ranks res) <= distinct words.
Proof.
  intros H; apply analyze_text_Ret in H as [Hne ->]; simpl.
  assert (Hlen : len (List.map fst (ranked words top_n))
                 = window_size (distinct words) top_n).
  { unfold len; rewrite length_map, ranked_length; apply rank_window_len. }
  split; [exact Hlen|split; [now rewrite !length_map|split; [now rewrite !length_map|]]].
  rewrite Hlen, <- rank_window_len.
  split.
  - destruct (rank_window words top_n); [congruence|unfold len; simpl; lia].
  - rewrite <- most_common_len; unfold len, rank_window, slice_to.
    destruct (top_n =? 0); [lia|].
    destruct (0 <=? top_n); rewrite length_firstn; lia.
Qed.

Lemma window_sizes_witness :
  len (ranks (zipf_record cat_tokens (-1))) = window_size (distinct cat_tokens) (-1)
  /\ length (freqs_rel (zipf_record cat_tokens (-1)))
     = length (ranks (zipf_record cat_tokens (-1)))
  /\ length (freqs_theor (zipf_record cat_tokens (-1)))
     = length (ranks (zipf_record cat_tokens (-1)))
  /\ 1 <= len (ranks (zipf_record cat_tokens (-1))) <= distinct cat_tokens.
Proof.
  apply (window_sizes cat_tokens (-1)); vm_compute; reflexivity.
Defined.

(** X9. The record counts the whole text whatever the cutoff:
    [total_words] is the number of tokens and [unique_words] the number
    of distinct tokens (not the number of visible ranks).  [top_list]
    holds the first 20 entries of the visible window, or all of them when
    there are fewer, each with the number of occurrences of its token. *)
Theorem record_counts (words : list str) (top_n : Z) (res : ZipfResult) :
  analyze_text words top_n = Ret res ->
  total_words res = len words
  /\ unique_words res = distinct words
  /\ top_list res = firstn 20 (rank_window words top_n)
  /\ len (top_list res) = Z.min 20 (len (ranks res))
  /\ (forall w c, In (w, c) (top_list res) -> c = occurrences w words /\ 0 < c).
Proof.
  intros H; apply analyze_text_Ret in H as [Hne ->]; simpl.
  split; [reflexivity|split; [apply Counter_distinct|]].
  assert (Htop : slice_to (rank_window words top_n) 20
                 = firstn 20 (rank_window words top_n)) by reflexivity.
  rewrite Htop; split; [reflexivity|split].
  - unfold len; rewrite length_firstn, length_map, ranked_length; lia.
  - intros w c Hin; eapply rank_window_In, In_firstn; eauto.
Qed.

Lemma record_counts_witness :
  total_words (zipf_record cat_tokens 2) = len cat_tokens
  /\ unique_words (zipf_record cat_tokens 2) = distinct cat_tokens
  /\ top_list (zipf_record cat_tokens 2) = firstn 20 (rank_window cat_tokens 2)
  /\ len (top_list (zipf_record cat_tokens 2))
     = Z.min 20 (len (ranks (zipf_record cat_tokens 2)))
  /\ (forall w c, In (w, c) (top_list (zipf_record cat_tokens 2)) ->
        c = occurrences w cat_tokens /\ 0 < c).
Proof.
  apply (record_counts cat_tokens 2); vm_compute; reflexivity.
Defined.

(* ================================================================= *)
(** ** Counts and relative frequencies *)

Lemma total_count_perm (l l' : list (str * Z)) :
  Permutation l l' -> total_count l = total_count l'.
Proof. induction 1; simpl; lia. Qed.

Lemma total_count_app (l l' : list (str * Z)) :
  total_count (l ++ l') = total_count l + total_count l'.
Proof. induction l; simpl; lia. Qed.

Lemma total_count_count_element (d : dict Z) (w : str) :
  total_count (count_element d w) = total_count d + 1.
Proof.
  unfold count_element, dict_get_default.
  induction d as [|[k v] d IH]; cbn [dict_set dict_get total_count fold_right snd].
  - lia.
  - destruct (str_eqb k w); cbn [total_count fold_right snd].
    + lia.
    + fold (total_count (dict_set d w
               (match dict_get d w with Some v0 => v0 | None => 0 end + 1))).
      fold (total_count d); lia.
Qed.

(** The counts of the counter add up to the number of tokens. *)
Lemma total_count_Counter (ws : list str) : total_count (Counter ws) = len ws.
Proof.
  induction ws as [|w ws IH] using rev_ind; [reflexivity|].
  rewrite Counter_snoc, total_count_count_element, IH.
  unfold len; rewrite length_app; simpl; lia.
Qed.

Lemma total_count_firstn (n : nat) (l : list (str * Z)) :
  Forall (fun it => 0 <= snd it) l ->
  0 <= total_count (firstn n l) <= total_count l.
Proof.
  intros H; revert n; induction H as [|x l Hx _ IH]; intros [|n]; simpl; try lia.
  - assert (0 <= total_count l) by (specialize (IH O); simpl in IH; lia). lia.
  - specialize (IH n); lia.
Qed.

Lemma rank_window_prefix (words : list str) (top_n : Z) :
  exists n, rank_window words top_n = firstn n (most_common (Counter words)).
Proof.
  unfold rank_window, slice_to.
  destruct (top_n =? 0); [|destruct (0 <=? top_n); eauto].
  exists (length (most_common (Counter words))); now rewrite firstn_all.
Qed.

Lemma most_common_counts_pos (words : list str) :
  Forall (fun it => 0 <= snd it) (most_common (Counter words)).
Proof.
  apply Forall_forall; intros [w c] Hin; simpl.
  apply (proj1 (sorted_desc_In snd _ _)) in Hin; apply Counter_In in Hin; lia.
Qed.

Lemma total_count_window (words : list str) (top_n : Z) :
  0 <= total_count (rank_window words top_n) <= len words.
Proof.
  destruct (rank_window_prefix words top_n) as [n ->].
  rewrite <- total_count_Counter,
    <- (total_count_perm _ _ (sorted_desc_perm snd (Counter words))).
  apply total_count_firstn, most_common_counts_pos.
Qed.

Lemma occurrences_le_len (w : str) (ws : list str) : occurrences w ws <= len ws.
Proof.
  unfold len; induction ws as [|x ws IH]; cbn [occurrences length]; [lia|].
  destruct (str_eqb x w); lia.
Qed.

Lemma ranked_freqs (words : list str) (top_n : Z) :
  List.map (fun it => rel_freq (len words) (snd (snd it))) (ranked words top_n)
  = List.map (fun it => rel_freq (len words) (snd it)) (rank_window words top_n).
Proof.
  unfold ranked.
  rewrite <- (enumerate_snd (rank_window words top_n) 1) at 2.
  now rewrite map_map.
Qed.

Lemma int_le (a b : Z) : a <= b -> (int a <= int b)%Q.
Proof. unfold int; now rewrite <- Zle_Qle. Qed.

Lemma rel_freq_bounds (total c : Z) :
  0 < c -> c <= total -> (0 < rel_freq total c /\ rel_freq total c <= 1)%Q.
Proof.
  intros Hc Hle; unfold rel_freq.
  assert (Ht : (0 < int total)%Q) by (apply int_pos; lia).
  split.
  - apply Qlt_shift_div_l; [exact Ht|].
    rewrite Qmult_0_l; now apply int_pos.
  - apply Qle_shift_div_r; [exact Ht|].
    rewrite Qmult_1_l; now apply int_le.
Qed.

(** X10. Relative frequencies are taken against the whole text: each one
    is the count of its rank divided by [total_words].  Every visible
    count is at least 1 and at most [total_words]; the visible counts add
    up to at most [total_words], and to exactly [total_words] when nothing
    is truncated (cutoff 0, or a cutoff that reaches the number of
    distinct tokens). *)
Theorem visible_counts (words : list str) (top_n : Z) (res : ZipfResult) :
  analyze_text words top_n = Ret res ->
  freqs_rel res
  = List.map (fun it => rel_freq (total_words res) (snd it)) (rank_window words top_n)
  /\ Forall (fun it => 1 <= snd it <= total_words res) (rank_window words top_n)
  /\ total_count (rank_window words top_n) <= total_words res
  /\ (top_n = 0 \/ distinct words <= top_n ->
      total_count (rank_window words top_n) = total_words res).
Proof.
  intros H; apply analyze_text_Ret in H as [Hne ->]; simpl.
  split; [apply ranked_freqs|split; [|split]].
  - apply Forall_forall; intros [w c] Hin; simpl.
    apply rank_window_In in Hin as [-> Hc].
    pose proof (occurrences_le_len w words); lia.
  - apply total_count_window.
  - intros Hfull.
    assert (Hall : rank_window words top_n = most_common (Counter words)).
    { destruct Hfull as [->|Hn]; [reflexivity|now apply rank_window_all]. }
    rewrite Hall; unfold most_common.
    rewrite (total_count_perm _ _ (sorted_desc_perm snd (Counter words))).
    apply total_count_Counter.
Qed.

Lemma visible_counts_witness :
  freqs_rel (zipf_record cat_tokens 2)
  = List.map (fun it => rel_freq (total_words (zipf_record cat_tokens 2)) (snd it))
      (rank_window cat_tokens 2)
  /\ Forall (fun it => 1 <= snd it <= total_words (zipf_record cat_tokens 2))
       (rank_window cat_tokens 2)
  /\ total_count (rank_window cat_tokens 2) <= total_words (zipf_record cat_tokens 2)
  /\ (2 = 0 \/ distinct cat_tokens <= 2 ->
      total_count (rank_window cat_tokens 2) = total_words (zipf_record cat_tokens 2)).
Proof.
  apply (visible_counts cat_tokens 2); vm_compute; reflexivity.
Defined.

(* ================================================================= *)
(** ** Signs of the estimators *)

Lemma sum_f_over_r_pos (fs : list Q) (rs : list Z) :
  combine fs rs <> [] ->
  Forall (fun f => 0 < f)%Q fs -> Forall (fun r => 0 < r) rs ->
  (0 < sum_f_over_r fs rs)%Q.
Proof.
  intros Hne Hf Hr; unfold sum_f_over_r; apply sum_pos.
  - destruct (combine fs rs); [congruence|discriminate].
  - apply Forall_map, Forall_forall; intros [f r] Hin.
    rewrite Forall_forall in Hf, Hr.
    apply Qlt_shift_div_l.
    + apply int_pos, Hr; eapply in_combine_r; eauto.
    + rewrite Qmult_0_l; apply Hf; eapply in_combine_l; eauto.
Qed.

Lemma sum_inv_sq_pos (rs : list Z) :
  rs <> [] -> Forall (fun r => 0 < r) rs -> (0 < sum_inv_sq rs)%Q.
Proof.
  intros Hne Hr; unfold sum_inv_sq; apply sum_pos.
  - destruct rs; [congruence|discriminate].
  - apply Forall_map; eapply Forall_impl; [|exact Hr].
    intros r Hpos; now apply inv_sq_pos.
Qed.

Lemma square_nonneg (x : Q) : (0 <= x ^ 2)%Q.
Proof.
  simpl; destruct (Qlt_le_dec x 0) as [Hn|Hp].
  - setoid_replace (x * x)%Q with ((- x) * (- x))%Q by ring.
    apply Qmult_le_0_compat; lra.
  - now apply Qmult_le_0_compat.
Qed.

Lemma sse_nonneg (fs : list Q) (rs : list Z) (C : Q) : (0 <= sse fs rs C)%Q.
Proof.
  unfold sse; apply sum_nonneg, Forall_map, Forall_forall.
  intros [f r] _; apply square_nonneg.
Qed.

(** X11. In every returned record the two estimators are positive and
    the mean squared error is not negative; the error is the residual
    sum of squares of [C_opt] divided by the number of visible ranks. *)
Theorem estimator_signs (words : list str) (top_n : Z) (res : ZipfResult) :
  analyze_text words top_n = Ret res ->
  (0 < C_mean res)%Q
  /\ (0 < C_opt res)%Q
  /\ (0 <= mse res)%Q
  /\ mse res
     = (sse (freqs_rel res) (ranks res) (C_opt res) / int (len (ranks res)))%Q.
Proof.
  intros H; apply analyze_text_Ret in H as [Hne ->]; simpl.
  pose proof (rank_window_words _ _ Hne) as Hw.
  pose proof (ranked_ranks_pos words top_n) as Hpos.
  assert (Hitems : ranked words top_n <> []).
  { unfold ranked; destruct (rank_window words top_n); [congruence|discriminate]. }
  assert (Hfreq : forall it, In it (ranked words top_n) ->
                    (0 < rel_freq (len words) (snd (snd it)))%Q).
  { intros [r [w c]] Hin; simpl.
    apply (in_map snd) in Hin; unfold ranked in Hin; rewrite enumerate_snd in Hin.
    apply rank_window_In in Hin as [-> Hc].
    apply rel_freq_bounds; [exact Hc|apply occurrences_le_len]. }
  assert (Hn : (0 < int (len (List.map fst (ranked words top_n))))%Q).
  { apply int_pos; unfold len; rewrite length_map.
    destruct (ranked words top_n); [congruence|simpl; lia]. }
  split; [|split; [|split; [|reflexivity]]].
  - unfold mean; apply Qlt_shift_div_l.
    + apply int_pos; unfold len; rewrite length_map.
      destruct (ranked words top_n); [congruence|simpl; lia].
    + rewrite Qmult_0_l; apply sum_pos.
      * destruct (ranked words top_n); [congruence|discriminate].
      * apply Forall_map, Forall_forall; intros it Hin.
        apply Qmult_lt_0_compat; [now apply Hfreq|].
        apply int_pos; rewrite Forall_forall in Hpos; apply Hpos.
        now apply in_map.
  - apply Qlt_shift_div_l.
    + apply sum_inv_sq_pos; [|exact Hpos].
      destruct (ranked words top_n); [congruence|discriminate].
    + rewrite Qmult_0_l; apply sum_f_over_r_pos; [| |exact Hpos].
      * destruct (ranked words top_n); [congruence|discriminate].
      * apply Forall_map, Forall_forall; exact Hfreq.
  - apply Qle_shift_div_l; [exact Hn|].
    rewrite Qmult_0_l; apply sse_nonneg.
Qed.

Lemma estimator_signs_witness :
  (0 < C_mean (zipf_record cat_tokens 10))%Q
  /\ (0 < C_opt (zipf_record cat_tokens 10))%Q
  /\ (0 <= mse (zipf_record cat_tokens 10))%Q
  /\ mse (zipf_record cat_tokens 10)
     = (sse (freqs_rel (zipf_record cat_tokens 10)) (ranks (zipf_record cat_tokens 10))
          (C_opt (zipf_record cat_tokens 10))
        / int (len (ranks (zipf_record cat_tokens 10))))%Q.
Proof.
  apply (estimator_signs cat_tokens 10); vm_compute; reflexivity.
Defined.

(* ================================================================= *)
(** ** Truncation *)

Lemma firstn_length_self {A : Type} (m : nat) (l : list A) :
  firstn (length (firstn m l)) l = firstn m l.
Proof.
  revert m; induction l as [|x l IH]; intros [|m]; simpl; try reflexivity.
  now rewrite IH.
Qed.

Lemma enumerate_firstn {A : Type} (k : nat) (l : list A) (start : Z) :
  enumerate start (firstn k l) = firstn k (enumerate start l).
Proof.
  revert k start; induction l as [|x l IH]; intros [|k] start; simpl; try reflexivity.
  now rewrite IH.
Qed.

(** X13. Truncation keeps the head of the ranking and does not
    renormalise: the ranks and relative frequencies of a truncated
    record are the first entries of those of the untruncated record
    (cutoff 0), and both records count the same total and distinct
    tokens. *)
Theorem truncation_is_a_prefix (words : list str) (top_n : Z) (res : ZipfResult) :
  analyze_text words top_n = Ret res ->
  exists full,
    analyze_text words 0 = Ret full
    /\ ranks res = firstn (length (ranks res)) (ranks full)
    /\ freqs_rel res = firstn (length (ranks res)) (freqs_rel full)
    /\ total_words res = total_words full
    /\ unique_words res = unique_words full.
Proof.
  intros H; apply analyze_text_Ret in H as [Hne ->].
  pose proof (rank_window_words _ _ Hne) as Hw.
  exists (zipf_record words 0); split.
  - apply analyze_text_ok, rank_window_nonempty; [exact Hw|lia].
  - simpl.
    assert (Hpre : ranked words top_n
                   = firstn (length (ranked words top_n)) (ranked words 0)).
    { unfold ranked; rewrite enumerate_length.
      destruct (rank_window_prefix words top_n) as [n Hn].
      rewrite Hn, rank_window_zero, <- enumerate_firstn.
      now rewrite firstn_length_self. }
    rewrite length_map.
    repeat split; rewrite Hpre at 1; now rewrite firstn_map.
Qed.

Lemma truncation_is_a_prefix_witness :
  exists full,
    analyze_text cat_tokens 0 = Ret full
    /\ ranks (zipf_record cat_tokens 2)
       = firstn (length (ranks (zipf_record cat_tokens 2))) (ranks full)
    /\ freqs_rel (zipf_record cat_tokens 2)
       = firstn (length (ranks (zipf_record cat_tokens 2))) (freqs_rel full)
    /\ total_words (zipf_record cat_tokens 2) = total_words full
    /\ unique_words (zipf_record cat_tokens 2) = unique_words full.
Proof.
  apply (truncation_is_a_prefix cat_tokens 2); vm_compute; reflexivity.
Defined.

(* ================================================================= *)
(** ** A corpus run without failure *)

Section CorpusSuccess.
Variables (fs : filesystem) (U : unicode) (folder : str) (top_n : Z).

Lemma corpus_loop_success (paths : list str) :
  Forall (fun n => exists r, analyze_file fs U folder n top_n = Ret r) paths ->
  forall out results,
    NoDup (List.map fst results ++ paths) ->
    exists results',
      corpus_loop fs U folder top_n paths out results
      = (out ++ flat_map (document_block fs U folder top_n) paths, Ret results')
      /\ List.map fst results' = List.map fst results ++ paths
      /\ (forall n r, In (n, r) results' ->
            In (n, r) results
            \/ (In n paths /\ analyze_file fs U folder n top_n = Ret r)).
Proof.
  induction 1 as [|name paths [r Hr] _ IH]; intros out results Hnd;
    cbn [corpus_loop flat_map].
  - exists results; rewrite !app_nil_r; repeat split; auto.
  - rewrite Hr.
    assert (Hnew : dict_set results name r = results ++ [(name, r)]).
    { apply dict_set_new, dict_get_None.
      apply NoDup_remove_2 in Hnd; intros Hin; apply Hnd, in_or_app; now left. }
    rewrite Hnew.
    destruct (IH ((out ++ [line_file name]) ++ summary r) (results ++ [(name, r)]))
      as (results' & Hrun & Hkeys & Hin).
    { rewrite map_app; simpl; now rewrite <- app_assoc. }
    exists results'; split; [|split].
    + rewrite Hrun; f_equal.
      unfold document_block at 2; rewrite Hr.
      simpl; now rewrite <- !app_assoc.
    + rewrite Hkeys, map_app; simpl; now rewrite <- app_assoc.
    + intros n r' Hn; apply Hin in Hn as [Hn|[Hn Hr']].
      * apply in_app_or in Hn as [Hn|[[= <- <-]|[]]]; [now left|right].
        split; [now left|exact Hr].
      * right; split; [now right|exact Hr'].
Qed.
End CorpusSuccess.

(** X14. When the documents of the folder have distinct names and none
    fails, [analyze_corpus] returns a mapping whose keys are the document
    names in sorted order, each with the result of analyzing that
    document, and it has printed one block per document, in that order:
    the header line and then the summary of the document's result. *)
Theorem corpus_run_success
  (fs : filesystem) (U : unicode) (folder : str) (top_n : Z) :
  NoDup (sorted_glob_txt fs folder) ->
  Forall (fun n => exists r, analyze_file fs U folder n top_n = Ret r)
    (sorted_glob_txt fs folder) ->
  exists results,
    analyze_corpus fs U folder top_n
    = (flat_map (document_block fs U folder top_n) (sorted_glob_txt fs folder),
       Ret results)
    /\ List.map fst results = sorted_glob_txt fs folder
    /\ (forall n r, In (n, r) results -> analyze_file fs U folder n top_n = Ret r).
Proof.
  intros Hnd Hall; unfold analyze_corpus.
  destruct (corpus_loop_success fs U folder top_n _ Hall [] [] Hnd)
    as (results & Hrun & Hkeys & Hin).
  exists results; split; [exact Hrun|split; [exact Hkeys|]].
  intros n r Hn; destruct (Hin n r Hn) as [[]|[_ H]]; exact H.
Qed.

Lemma corpus_run_success_witness :
  exists results,
    analyze_corpus odd_files basic_unicode (u "corpus") 2
    = (flat_map (document_block odd_files basic_unicode (u "corpus") 2)
         (sorted_glob_txt odd_files (u "corpus")),
       Ret results)
    /\ List.map fst results = sorted_glob_txt odd_files (u "corpus")
    /\ (forall n r, In (n, r) results ->
          analyze_file odd_files basic_unicode (u "corpus") n 2 = Ret r).
Proof.
  apply (corpus_run_success odd_files basic_unicode (u "corpus") 2).
  - repeat constructor; simpl; intuition discriminate.
  - repeat constructor; eexists; vm_compute; reflexivity.
Defined.

(* ================================================================= *)
(** ** [compare_two_files] *)

(** X15. [compare_two_files] shows nothing unless both documents are
    read and analyzed: whenever it raises, nothing was printed or drawn.
    The reads come first: an unreadable first document raises its
    exception; with a readable first document an unreadable second one
    raises its own, even when the analysis of the first would fail; only
    then do the failures of the two analyses count, the first document's
    before the second's. *)
Theorem compare_two_files_failures
  (fs : filesystem) (U : unicode) (folder file1 file2 : str) (top_n : Z) :
  (forall out e,
      compare_two_files fs U folder file1 file2 top_n = (out, Raise e) -> out = [])
  /\ (forall e,
         read_text_safely fs folder file1 = Raise e ->
         compare_two_files fs U folder file1 file2 top_n = ([], Raise e))
  /\ (forall text1 e,
         read_text_safely fs folder file1 = Ret text1 ->
         read_text_safely fs folder file2 = Raise e ->
         compare_two_files fs U folder file1 file2 top_n = ([], Raise e))
  /\ (forall text2 e,
         read_text_safely fs folder file2 = Ret text2 ->
         analyze_file fs U folder file1 top_n = Raise e ->
         compare_two_files fs U folder file1 file2 top_n = ([], Raise e))
  /\ (forall res1 e,
         analyze_file fs U folder file1 top_n = Ret res1 ->
         analyze_file fs U folder file2 top_n = Raise e ->
         compare_two_files fs U folder file1 file2 top_n = ([], Raise e)).
Proof.
  unfold compare_two_files, analyze_file.
  destruct (read_text_safely fs folder file1) as [text1|e1];
    destruct (read_text_safely fs folder file2) as [text2|e2]; simpl;
    rewrite ?get_words_kept; simpl.
  - destruct (analyze_text _ top_n) as [res1|a1];
      destruct (analyze_text _ top_n) as [res2|a2]; simpl;
      repeat split; intros; congruence.
  - repeat split; intros; congruence.
  - repeat split; intros; congruence.
  - repeat split; intros; congruence.
Qed.

Lemma compare_two_files_failures_witness :
  compare_two_files odd_files basic_unicode (u "corpus") (u "a.txt") (u "b.txt") 200
  = ([], Raise OSError).
Proof.
  apply (proj1 (proj2 (proj2
           (compare_two_files_failures odd_files basic_unicode (u "corpus")
              (u "a.txt") (u "b.txt") 200)))
           (u "ёж и ёрш: float float float") OSError);
    reflexivity.
Defined.

(** X16. [compare_two_files] succeeds exactly when the analysis of each
    of the two documents (as [analyze_corpus] runs it) succeeds.  It then
    shows, in this order, the heading, the rule, one line of estimates
    per document, and one figure per document, each built from the
    result of that analysis. *)
Theorem compare_two_files_success
  (fs : filesystem) (U : unicode) (folder file1 file2 : str) (top_n : Z) :
  (forall res1 res2,
      analyze_file fs U folder file1 top_n = Ret res1 ->
      analyze_file fs U folder file2 top_n = Ret res2 ->
      compare_two_files fs U folder file1 file2 top_n
      = ([shown_comparison file1 file2;
          shown_rule;
          shown_estimates file1 (C_mean res1) (C_opt res1) (mse res1);
          shown_estimates file2 (C_mean res2) (C_opt res2) (mse res2);
          shown_figure (ranks res1) (freqs_rel res1) (freqs_theor res1)
            (C_opt res1) (u "Закон Ципфа: " ++ file1);
          shown_figure (ranks res2) (freqs_rel res2) (freqs_theor res2)
            (C_opt res2) (u "Закон Ципфа: " ++ file2)],
         Ret tt))
  /\ (forall out,
         compare_two_files fs U folder file1 file2 top_n = (out, Ret tt) ->
         exists res1 res2,
           analyze_file fs U folder file1 top_n = Ret res1
           /\ analyze_file fs U folder file2 top_n = Ret res2).
Proof.
  unfold compare_two_files, analyze_file, plot_zipf.
  destruct (read_text_safely fs folder file1) as [text1|e1];
    destruct (read_text_safely fs folder file2) as [text2|e2]; simpl;
    rewrite ?get_words_kept; simpl;
    try (split; intros; try discriminate; congruence).
  destruct (analyze_text _ top_n) as [res1|a1];
    destruct (analyze_text _ top_n) as [res2|a2]; simpl;
    try (split; intros; try discriminate; congruence).
  split.
  - intros r1 r2 [= <-] [= <-]; reflexivity.
  - intros out _; eauto.
Qed.

Lemma compare_two_files_success_witness :
  exists out,
    compare_two_files odd_files basic_unicode (u "corpus") (u "a.txt") (u "c.txt") 2
    = (out, Ret tt).
Proof.
  eexists.
  apply (proj1 (compare_two_files_success odd_files basic_unicode (u "corpus")
                  (u "a.txt") (u "c.txt") 2)
           (zipf_record (u "float" :: u "float" :: u "float" :: nil) 2)
           (zipf_record
              (List.map u ["закон"; "закон"; "закон"; "слово"; "слово"; "число"]%string) 2));
    vm_compute; reflexivity.
Defined.
